(** * Extractive summarizer of the TextSummarizer tool

    Shallow embedding of [summarizeText] (the click handler of the
    TextSummarizer component) and of the timer callback it schedules.

    Strings are JavaScript strings: finite sequences of UTF-16 code units,
    here [list N].  Lengths, indices and word counts are [nat], the slider
    value is [Z].  The numbers that the source multiplies by a fraction or
    divides (the sentence scores, the 30% cutoff) are exact rationals [Q].
    In the source they are doubles: the sums of counts and their products
    by 1.5 are exact there, and the one rounding, that of the quotient by
    the number of words, keeps equal scores equal and never inverts two
    scores; it keeps different scores different as long as the document
    has no more than 2^16 long words. *)

From Stdlib Require Import QArith Lia Lqa Ascii String.
From stdpp Require Import base list gmap sorting pretty.

Open Scope N_scope.

(** ** Code units and character classes *)

Abbreviation jsstring := (list N).

(** A string literal of the source, as code units. *)
Definition js (s : string) : jsstring :=
  N_of_ascii <$> list_ascii_of_string s.

(** [\s] of a regular expression and the characters [trim] strips:
    WhiteSpace and LineTerminator of ECMAScript. *)
Definition isWhiteSpace (c : N) : bool :=
  ((9 <=? c) && (c <=? 13)) || (c =? 32) || (c =? 160) || (c =? 0x1680)
  || ((0x2000 <=? c) && (c <=? 0x200a)) || (c =? 0x2028) || (c =? 0x2029)
  || (c =? 0x202f) || (c =? 0x205f) || (c =? 0x3000) || (c =? 0xfeff).

(** [\w] without the unicode and ignoreCase flags: [A-Za-z0-9_]. *)
Definition isWordChar (c : N) : bool :=
  ((48 <=? c) && (c <=? 57)) || ((65 <=? c) && (c <=? 90)) || (c =? 95)
  || ((97 <=? c) && (c <=? 122)).

(** The class [.!?] of the sentence separator. *)
Definition isTerminator (c : N) : bool :=
  (c =? 46) || (c =? 33) || (c =? 63).

Close Scope N_scope.

(** ** Built-in string operations *)

(** [s.split(/[C]+/)] for a character class [C]: the pieces between the
    maximal runs of separator characters.  A separator run at the start or
    at the end of the string leaves an empty first or last piece, and the
    empty string splits into one empty piece.  [in_run] tells that the
    previous code unit belonged to a separator run. *)
Fixpoint split_run (sep : N → bool) (in_run : bool) (s : jsstring)
  : list jsstring :=
  match s with
  | [] => [[]]
  | c :: s' =>
      if sep c then
        if in_run then split_run sep true s'
        else [] :: split_run sep true s'
      else
        match split_run sep false s' with
        | piece :: pieces => (c :: piece) :: pieces
        | [] => [[c]]
        end
  end.

Definition split (sep : N → bool) (s : jsstring) : list jsstring :=
  split_run sep false s.

Fixpoint trimStart (s : jsstring) : jsstring :=
  match s with
  | [] => []
  | c :: s' => if isWhiteSpace c then trimStart s' else s
  end.

Fixpoint trimEnd (s : jsstring) : jsstring :=
  match s with
  | [] => []
  | c :: s' =>
      match trimEnd s' with
      | [] => if isWhiteSpace c then [] else [c]
      | t => c :: t
      end
  end.

(** [s.trim()] *)
Definition trim (s : jsstring) : jsstring := trimEnd (trimStart s).

(** [s.replace(/[^\w\s]/g, ' ')] *)
Definition replacePunctuation (s : jsstring) : jsstring :=
  (λ c, if isWordChar c || isWhiteSpace c then c else 32%N) <$> s.

(** [parts.join(sep)] *)
Fixpoint join (sep : jsstring) (parts : list jsstring) : jsstring :=
  match parts with
  | [] => []
  | [p] => p
  | p :: rest => p ++ sep ++ join sep rest
  end.

(** [String.prototype.toLowerCase] on Basic Latin: the instance used to
    evaluate the algorithm on concrete (ASCII) documents. *)
Definition toLowerCase_latin (s : jsstring) : jsstring :=
  (λ c, if (65 <=? c)%N && (c <=? 90)%N then (c + 32)%N else c) <$> s.

(** ** Arrays *)

(** [a.slice(0, end)] for an integer [end]: a negative [end] counts from
    the end of the array, and the bounds are clamped to the array. *)
Definition slice0 {A} (a : list A) (end_ : Z) : list A :=
  let len := Z.of_nat (length a) in
  let final := if (end_ <? 0)%Z then Z.max (len + end_) 0 else Z.min end_ len in
  take (Z.to_nat final) a.

(** [a.sort(compareFn)].  The sort of an array is stable and, for a
    comparator that orders the elements consistently, sorted: the two fix
    the result, which is given here by insertion from the right, where [x]
    stays before the [y] that followed it when [compareFn(x, y) <= 0]. *)
Fixpoint sort_insert {A} (compareFn : A → A → Q) (x : A) (l : list A) : list A :=
  match l with
  | [] => [x]
  | y :: l' =>
      if Qle_bool (compareFn x y) 0 then x :: l
      else y :: sort_insert compareFn x l'
  end.

Definition sort {A} (compareFn : A → A → Q) (a : list A) : list A :=
  foldr (sort_insert compareFn) [] a.

(** ** The component *)

(** A call of [toast]. *)
Record Toast := {
  title : jsstring;
  description : jsstring;
  destructive : bool
}.

(** One entry of [sentenceScores]. *)
Record ScoredSentence := {
  sentence : jsstring;
  score : Q;
  index : nat
}.

(** The [useState] cells of the component. *)
Record State := {
  inputText : jsstring;
  summary : jsstring;
  summaryLength : list Z;
  isProcessing : bool
}.

(** The callback handed to [setTimeout]: a closure over the [inputText]
    and [summaryLength] of the render in which the button was clicked. *)
Record Timer := {
  timer_inputText : jsstring;
  timer_summaryLength : list Z;
  timer_delay : nat
}.

(** The component together with what it has sent to its environment:
    the toasts shown so far and the timers not fired yet. *)
Record World := {
  state : State;
  toasts : list Toast;
  timers : list Timer
}.

Definition setSummary (text : jsstring) (st : State) : State :=
  {| inputText := inputText st; summary := text;
     summaryLength := summaryLength st; isProcessing := isProcessing st |}.

Definition setIsProcessing (b : bool) (st : State) : State :=
  {| inputText := inputText st; summary := summary st;
     summaryLength := summaryLength st; isProcessing := b |}.

Definition toast (t : Toast) (w : World) : World :=
  {| state := state w; toasts := toasts w ++ [t]; timers := timers w |}.

Definition setTimeout (t : Timer) (w : World) : World :=
  {| state := state w; toasts := toasts w; timers := timers w ++ [t] |}.

Definition update (f : State → State) (w : World) : World :=
  {| state := f (state w); toasts := toasts w; timers := timers w |}.

Definition noValidSentences : jsstring :=
  js "No valid sentences found for summarization.".

Definition couldNotGenerate : jsstring :=
  js "Could not generate summary from the provided text.".

Definition toastNoText : Toast :=
  {| title := js "No Text";
     description := js "Please enter text to summarize";
     destructive := true |}.

Definition toastGenerated (count : nat) : Toast :=
  {| title := js "Summary Generated";
     description :=
       js "Summarized to " ++ js (pretty count) ++ js " key sentences";
     destructive := false |}.

Section Summarizer.

(** [String.prototype.toLowerCase], which follows the Unicode case
    mappings: every statement below holds whatever it does to a string. *)
Variable toLowerCase : jsstring → jsstring.

(** [const sentences = inputText.split(/[.!?]+/).map(s => s.trim())
    .filter(s => s.length > 10)] *)
Definition sentences (inputText : jsstring) : list jsstring :=
  filter (λ s, 10 < length s) (trim <$> split isTerminator inputText).

(** [text.toLowerCase().replace(/[^\w\s]/g, ' ').split(/\s+/)
    .filter(word => word.length > 3)], the chain that gives both [words]
    and every [sentenceWords]. *)
Definition longWords (text : jsstring) : list jsstring :=
  filter (λ word, 3 < length word)
    (split isWhiteSpace (replacePunctuation (toLowerCase text))).

Definition words (inputText : jsstring) : list jsstring :=
  longWords inputText.

(** [wordFreq.get(word) || 0] *)
Definition getOrZero (wordFreq : gmap (list N) nat) (word : jsstring) : nat :=
  default 0 (wordFreq !! word).

(** [words.forEach(word => wordFreq.set(word, (wordFreq.get(word) || 0) + 1))]
    on the empty map *)
Definition wordFreq (inputText : jsstring) : gmap (list N) nat :=
  foldl (λ freq word, <[word := getOrZero freq word + 1]> freq)
    ∅ (words inputText).

(** [index < sentences.length * 0.3].  The product is a double; it is the
    exact [3 * length / 10] when that is an integer, and differs from it
    by far less than the distance to the next integer otherwise, so the
    comparison with the integer [index] is the exact one. *)
Definition boosted (index total : nat) : bool :=
  negb (Qle_bool (inject_Z (Z.of_nat total) * (3 # 10))
                 (inject_Z (Z.of_nat index))).

(** The body of [sentences.map((sentence, index) => ...)].  The last
    line is [score / sentenceWords.length || 0]: without words the sum is
    0 and the quotient 0/0 is NaN, which [||] replaces by 0. *)
Definition scoreSentence (freq : gmap (list N) nat) (total : nat)
    (index : nat) (sentence : jsstring) : ScoredSentence :=
  let sentenceWords := longWords sentence in
  let score :=
    foldl (λ score word, (score + inject_Z (Z.of_nat (getOrZero freq word)))%Q)
      0%Q sentenceWords in
  let score := if boosted index total then (score * (3 # 2))%Q else score in
  {| sentence := trim sentence ++ js ".";
     score := match length sentenceWords with
              | O => 0%Q
              | S _ => (score / inject_Z (Z.of_nat (length sentenceWords)))%Q
              end;
     index := index |}.

Definition sentenceScores (inputText : jsstring) : list ScoredSentence :=
  imap (scoreSentence (wordFreq inputText) (length (sentences inputText)))
    (sentences inputText).

(** [Math.min(summaryLength[0], sentences.length)] as the [end] of a
    slice: an absent element gives NaN, which a slice reads as 0. *)
Definition sliceEnd (summaryLength : list Z) (total : nat) : Z :=
  match summaryLength with
  | [] => 0
  | requested :: _ => Z.min requested (Z.of_nat total)
  end.

Definition byScoreDesc (a b : ScoredSentence) : Q := (score b - score a)%Q.

Definition byIndexAsc (a b : ScoredSentence) : Q :=
  (inject_Z (Z.of_nat (index a)) - inject_Z (Z.of_nat (index b)))%Q.

Definition topSentences (inputText : jsstring) (summaryLength : list Z)
  : list ScoredSentence :=
  sort byIndexAsc
    (slice0 (sort byScoreDesc (sentenceScores inputText))
            (sliceEnd summaryLength (length (sentences inputText)))).

Definition summarizedText (inputText : jsstring) (summaryLength : list Z)
  : jsstring :=
  join (js " ") (sentence <$> topSentences inputText summaryLength).

(** The callback of [setTimeout].  Nothing in its [try] block throws, so
    the [catch] branch is never taken; [finally] resets [isProcessing] on
    both ways out. *)
Definition onTimeout (t : Timer) (w : World) : World :=
  match sentences (timer_inputText t) with
  | [] =>
      update (setIsProcessing false)
        (update (setIsProcessing false)
           (update (setSummary noValidSentences) w))
  | _ :: _ =>
      let text := summarizedText (timer_inputText t) (timer_summaryLength t) in
      let count := length (topSentences (timer_inputText t) (timer_summaryLength t)) in
      update (setIsProcessing false)
        (toast (toastGenerated count)
           (update (setSummary (match text with
                                | [] => couldNotGenerate
                                | _ :: _ => text
                                end)) w))
  end.

(** The click handler. *)
Definition summarizeText (w : World) : World :=
  match trim (inputText (state w)) with
  | [] => toast toastNoText w
  | _ :: _ =>
      setTimeout {| timer_inputText := inputText (state w);
                    timer_summaryLength := summaryLength (state w);
                    timer_delay := 1000 |}
        (update (setIsProcessing true) w)
  end.

(** The event loop fires the pending timers, oldest first. *)
Definition fireTimers (w : World) : World :=
  foldl (λ w t, onTimeout t w)
    {| state := state w; toasts := toasts w; timers := [] |} (timers w).

(** One click on the button of a component showing [st], followed to the
    end of the timeout. *)
Definition click (st : State) : World :=
  fireTimers (summarizeText {| state := st; toasts := []; timers := [] |}).

End Summarizer.

(** A component showing [shown] as its summary, with [document] typed in
    and the slider on [sentenceCount]. *)
Definition st0 (document : string) (sentenceCount : Z) (shown : string)
  : State :=
  {| inputText := js document; summary := js shown;
     summaryLength := [sentenceCount]; isProcessing := false |}.

(** ** Reading of the specification *)

Section Reading.

Variable toLowerCase : jsstring → jsstring.

(** The Frequency Table of the specification: the number of occurrences
    of a token among the tokens of the whole document. *)
Definition tokenCount (document token : jsstring) : nat :=
  length (filter (λ w, w = token) (longWords toLowerCase document)).

(** The length-normalized score of a sentence: the counts of its tokens,
    summed and divided by the number of its tokens, and 0 without
    tokens. *)
Definition lengthNormalized (document sentence : jsstring) : Q :=
  let tokens := longWords toLowerCase sentence in
  match tokens with
  | [] => 0%Q
  | _ :: _ =>
      (inject_Z (Z.of_nat (sum_list (tokenCount document <$> tokens)))
       / inject_Z (Z.of_nat (length tokens)))%Q
  end.

End Reading.

(** The sentence-terminating punctuation of the specification: [.], [!]
    and [?]. *)
Definition sentencePunctuation (c : N) : Prop := c ∈ js ".!?".

(** The word characters of the specification, those of a lowercased
    alphabetic or numeric word, with the capitals and the underscore that
    a "word character" of a regular expression also covers. *)
Definition wordCharacter (c : N) : Prop :=
  c ∈ js "abcdefghijklmnopqrstuvwxyzABCDEFGHIJKLMNOPQRSTUVWXYZ0123456789_".

(** The white space of the specification, by code point: tab, line feed,
    vertical tab, form feed, carriage return, space, no-break space, ogham
    space mark, en quad to hair space, line separator, paragraph
    separator, narrow no-break space, medium mathematical space,
    ideographic space and the byte order mark. *)
Definition whiteSpaceCharacter (c : N) : Prop :=
  c ∈ [9; 10; 11; 12; 13; 32; 160; 5760; 8192; 8193; 8194; 8195; 8196; 8197;
       8198; 8199; 8200; 8201; 8202; 8232; 8233; 8239; 8287; 12288; 65279]%N.

(** "Replace every non-word/non-whitespace character with a space": [d]
    stands in the result where [c] stood in the text. *)
Definition replacedBySpace (c d : N) : Prop :=
  ((wordCharacter c ∨ whiteSpaceCharacter c) ∧ d = c)
  ∨ (¬ (wordCharacter c ∨ whiteSpaceCharacter c) ∧ [d] = js " ").

(** The position bonus. *)
Definition positionBonus (applies : bool) : Q :=
  if applies then (3 # 2)%Q else 1%Q.

(** The cutoff of the specification, [floor(0.3 * totalSentences)]. *)
Definition floorCutoff (totalSentences : nat) : nat :=
  (3 * totalSentences) `div` 10.

(** [pieces] joined again, with the separator run [runs !! i] after the
    piece [pieces !! i]. *)
Fixpoint weave (pieces runs : list jsstring) : jsstring :=
  match pieces, runs with
  | [], _ => []
  | p :: _, [] => p
  | p :: ps, r :: rs => p ++ r ++ weave ps rs
  end.

(** "Split on one-or-more occurrences of the separator": the string is
    its pieces with a non-empty run of separators between any two
    neighbours, no piece holds a separator, and no piece strictly inside
    is empty (the runs are maximal). *)
Definition SplitsOn (sep : N → bool) (s : jsstring) (pieces : list jsstring)
  : Prop :=
  ∃ runs,
    length pieces = S (length runs)
    ∧ s = weave pieces runs
    ∧ Forall (λ r, r ≠ [] ∧ Forall (λ c, sep c = true) r) runs
    ∧ Forall (Forall (λ c, sep c = false)) pieces
    ∧ ∀ i, 0 < i < length runs → pieces !! i ≠ Some [].

(** "Trimmed": [t] is [s] without the white space at its two ends. *)
Definition Trimmed (s t : jsstring) : Prop :=
  ∃ l r,
    s = l ++ t ++ r
    ∧ Forall (λ c, isWhiteSpace c = true) l
    ∧ Forall (λ c, isWhiteSpace c = true) r
    ∧ (∀ c, head t = Some c → isWhiteSpace c = false)
    ∧ (∀ c, last t = Some c → isWhiteSpace c = false).

(** A string that [trimStart] leaves as it is. *)
Definition startsClean (s : jsstring) : Prop :=
  match s with
  | [] => True
  | c :: _ => isWhiteSpace c = false
  end.

(** Orders on records by a numeric field. *)
Definition key_lt {A} (key : A → nat) : relation A := λ a b, key a < key b.
Definition key_le {A} (key : A → nat) : relation A := λ a b, key a ≤ key b.

(** The number of occurrences of a code unit in a string. *)
Definition occurrences (c : N) (s : jsstring) : nat :=
  length (filter (λ d, d = c) s).

(** ** The rest of the TextSummarizer component *)

Definition setInputText (text : jsstring) (st : State) : State :=
  {| inputText := text; summary := summary st;
     summaryLength := summaryLength st; isProcessing := isProcessing st |}.

Definition setSummaryLength (value : list Z) (st : State) : State :=
  {| inputText := inputText st; summary := summary st;
     summaryLength := value; isProcessing := isProcessing st |}.

(** [clearAll] *)
Definition clearAll (w : World) : World :=
  update (setSummary (js "")) (update (setInputText (js "")) w).

(** [getWordCount]: [text.trim() ? text.trim().split(/\s+/).length : 0] *)
Definition getWordCount (text : jsstring) : nat :=
  match trim text with
  | [] => 0
  | _ :: _ => length (split isWhiteSpace (trim text))
  end.

(** The [disabled] attribute of the "Summarize Text" button:
    [!inputText.trim() || isProcessing]. *)
Definition summarizeDisabled (st : State) : bool :=
  match trim (inputText st) with
  | [] => true
  | _ :: _ => isProcessing st
  end.

Definition toastCopied : Toast :=
  {| title := js "Copied!";
     description := js "Summary copied to clipboard";
     destructive := false |}.

(** The component as first rendered: the [useState] initial values. *)
Definition initialWorld : World :=
  {| state := {| inputText := js ""; summary := js "";
                 summaryLength := [3%Z]; isProcessing := false |};
     toasts := []; timers := [] |}.

(** What can happen to the rendered component, one event at a time:
    - the textarea's [onChange] sets any text;
    - the slider's [onValueChange] sets one value, which the slider keeps
      between its [min={1}] and [max={10}] in steps of 1;
    - a click on "Summarize Text", which the button takes only while it is
      not disabled, runs [summarizeText];
    - a click on the reset button runs [clearAll];
    - the clipboard promise of [copyToClipboard] resolves and shows its
      toast (allowed here at any time, which covers every moment at which
      it can resolve);
    - the oldest pending timer fires. *)
Inductive step (toLowerCase : jsstring → jsstring) : World → World → Prop :=
  | step_change text w :
      step toLowerCase w (update (setInputText text) w)
  | step_slide value w :
      (1 ≤ value ≤ 10)%Z →
      step toLowerCase w (update (setSummaryLength [value]) w)
  | step_summarize w :
      summarizeDisabled (state w) = false →
      step toLowerCase w (summarizeText w)
  | step_clear w :
      step toLowerCase w (clearAll w)
  | step_copied w :
      step toLowerCase w (toast toastCopied w)
  | step_timeout t rest w :
      timers w = t :: rest →
      step toLowerCase w
        (onTimeout toLowerCase t
           {| state := state w; toasts := toasts w; timers := rest |}).

(** The worlds that the events lead to from the first render. *)
Definition reachable (toLowerCase : jsstring → jsstring) (w : World) : Prop :=
  rtc (step toLowerCase) initialWorld w.

(** A slider value as the slider gives it. *)
Definition sliderValue (value : list Z) : Prop :=
  ∃ v, value = [v] ∧ (1 ≤ v ≤ 10)%Z.

(** The toasts that the events can show. *)
Definition eventToast (t : Toast) : Prop :=
  t = toastCopied ∨ ∃ count, 1 ≤ count ≤ 10 ∧ t = toastGenerated count.

(** The summaries that the events can show: none, the "no valid
    sentences" text, or the selected sentences of a document that has
    eligible ones, for a value of the slider. *)
Definition eventSummary (toLowerCase : jsstring → jsstring) (s : jsstring)
  : Prop :=
  s = js "" ∨ s = noValidSentences
  ∨ ∃ document value,
      sliderValue value ∧ sentences document ≠ []
      ∧ topSentences toLowerCase document value ≠ []
      ∧ s = summarizedText toLowerCase document value.

(** Nothing is pending and nothing is being processed, or one timer is
    pending, for text that is not blank and a value of the slider, and
    the component is processing. *)
Definition pendingTimer (w : World) : Prop :=
  (timers w = [] ∧ isProcessing (state w) = false)
  ∨ ∃ t, timers w = [t] ∧ isProcessing (state w) = true
         ∧ trim (timer_inputText t) ≠ []
         ∧ sliderValue (timer_summaryLength t).

Definition uiInvariant (toLowerCase : jsstring → jsstring) (w : World) : Prop :=
  pendingTimer w
  ∧ sliderValue (summaryLength (state w))
  ∧ Forall eventToast (toasts w)
  ∧ eventSummary toLowerCase (summary (state w)).

(** The events that do not start or end a summarization. *)
Inductive edit : World → World → Prop :=
  | edit_change text w : edit w (update (setInputText text) w)
  | edit_slide value w :
      (1 ≤ value ≤ 10)%Z → edit w (update (setSummaryLength [value]) w)
  | edit_clear w : edit w (clearAll w)
  | edit_copied w : edit w (toast toastCopied w).

(** ** The Reminders component *)

Module Reminders.

Record Reminder := {
  id : jsstring;
  title : jsstring;
  datetime : jsstring;
  completed : bool
}.

(** The [useState] cells. *)
Record State := {
  reminders : list Reminder;
  newTitle : jsstring;
  newDatetime : jsstring
}.

(** The component and the toasts it has shown. *)
Record World := {
  state : State;
  toasts : list Toast
}.

Definition setReminders (f : list Reminder → list Reminder) (w : World)
  : World :=
  {| state := {| reminders := f (reminders (state w));
                 newTitle := newTitle (state w);
                 newDatetime := newDatetime (state w) |};
     toasts := toasts w |}.

Definition toast (t : Toast) (w : World) : World :=
  {| state := state w; toasts := toasts w ++ [t] |}.

(** [{ ...r, completed: b }] *)
Definition withCompleted (b : bool) (r : Reminder) : Reminder :=
  {| id := id r; title := title r; datetime := datetime r; completed := b |}.

(** [deleteReminder] *)
Definition deleteReminder (id' : jsstring) (w : World) : World :=
  setReminders (λ prev, filter (λ r, id r ≠ id') prev) w.

(** [toggleReminder] *)
Definition toggleReminder (id' : jsstring) (w : World) : World :=
  setReminders
    (λ prev, (λ r, if decide (id r = id')
                   then withCompleted (negb (completed r)) r else r) <$> prev)
    w.

(** The bell and a space, the start of the title of a due reminder's
    toast: U+1F514 as its two UTF-16 code units, then U+0020. *)
Definition bell : jsstring := [0xD83D; 0xDD14; 32]%N.

(** The reminders [rs] with those of the ids [ids] marked as completed. *)
Definition markCompleted (ids : list jsstring) (rs : list Reminder)
  : list Reminder :=
  (λ r, if decide (id r ∈ ids) then withCompleted true r else r) <$> rs.

Section Dates.

(** [new Date(s).getTime()]: the milliseconds of the date that the string
    gives, and [None] for the NaN of an invalid date. *)
Variable getTime : jsstring → option Z.

(** [new Date(s).toLocaleString()] *)
Variable toLocaleString : jsstring → jsstring.

(** [addReminder], where [uuid] is what [crypto.randomUUID()] returns. *)
Definition addReminder (uuid : jsstring) (w : World) : World :=
  match trim (newTitle (state w)), newDatetime (state w) with
  | [], _ | _, [] => w
  | _ :: _, _ :: _ =>
      {| state :=
           {| reminders :=
                reminders (state w)
                ++ [ {| id := uuid; title := trim (newTitle (state w));
                        datetime := newDatetime (state w);
                        completed := false |} ];
              newTitle := js ""; newDatetime := js "" |};
         toasts :=
           toasts w
           ++ [ Build_Toast (js "Reminder Added")
                  (js "Reminder set for "
                   ++ toLocaleString (newDatetime (state w)))
                  false ] |}
  end.

(** The test of the interval callback on one reminder at the time [now]:
    [!reminder.completed] and [timeDiff <= 0 && timeDiff > -60000].  With
    an invalid date [timeDiff] is NaN and both comparisons fail. *)
Definition due (now : Z) (r : Reminder) : bool :=
  negb (completed r)
  && match getTime (datetime r) with
     | Some reminderTime =>
         let timeDiff := (reminderTime - now)%Z in
         (timeDiff <=? 0)%Z && (-60000 <? timeDiff)%Z
     | None => false
     end.

(** One run of the interval callback at the time [now]: it walks the
    reminders of its render and, for each one that is due, shows the toast
    and marks every reminder of that id as completed. *)
Definition checkDue (now : Z) (w : World) : World :=
  foldl
    (λ w reminder,
       if due now reminder then
         setReminders
           (λ prev, (λ r, if decide (id r = id reminder)
                          then withCompleted true r else r) <$> prev)
           (toast (Build_Toast (bell ++ js "Reminder") (title reminder) false) w)
       else w)
    w (reminders (state w)).

(** [getTimeUntil] at the time [now].  The quotients are taken of a
    difference that is not negative, where [Math.floor] of the quotient
    and [%] are the division and the remainder of integers.  With an
    invalid date every number is NaN, no comparison holds, and the last
    [return] prints the minutes. *)
Definition getTimeUntil (now : Z) (datetime : jsstring) : jsstring :=
  match getTime datetime with
  | None => js "NaNm"
  | Some target =>
      let diff := (target - now)%Z in
      if (diff <? 0)%Z then js "Overdue"
      else
        let days := (diff `div` (1000 * 60 * 60 * 24))%Z in
        let hours :=
          ((diff `mod` (1000 * 60 * 60 * 24)) `div` (1000 * 60 * 60))%Z in
        let minutes := ((diff `mod` (1000 * 60 * 60)) `div` (1000 * 60))%Z in
        if (0 <? days)%Z then
          js (pretty days) ++ js "d " ++ js (pretty hours) ++ js "h"
        else if (0 <? hours)%Z then
          js (pretty hours) ++ js "h " ++ js (pretty minutes) ++ js "m"
        else js (pretty minutes) ++ js "m"
  end.

End Dates.

End Reminders.

(** ** Concrete worlds *)

(** A document is typed, the button is clicked, the timer fires. *)
Definition typedWorld : World :=
  update (setInputText (js "Summaries need words. Another sentence is here."))
    initialWorld.

Definition pendingWorld : World := summarizeText typedWorld.

Definition doneWorld : World :=
  onTimeout toLowerCase_latin
    {| timer_inputText := js "Summaries need words. Another sentence is here.";
       timer_summaryLength := [3%Z]; timer_delay := 1000 |}
    {| state := state pendingWorld; toasts := toasts pendingWorld;
       timers := [] |}.

(** Two reminders, the second one completed. *)
Definition twoReminders : Reminders.World :=
  {| Reminders.state :=
       {| Reminders.reminders :=
            [ {| Reminders.id := js "a"; Reminders.title := js "Call";
                 Reminders.datetime := js "2030-01-01T10:00";
                 Reminders.completed := false |};
              {| Reminders.id := js "b"; Reminders.title := js "Mail";
                 Reminders.datetime := js "2030-01-02T10:00";
                 Reminders.completed := true |} ];
          Reminders.newTitle := js " Walk ";
          Reminders.newDatetime := js "2030-01-03T10:00" |};
     Reminders.toasts := [] |}.

(** * Properties *)

(** ** Sorting *)

Section Sort.

Context {A : Type} (compareFn : A → A → Q).

Lemma sort_insert_Permutation x l : sort_insert compareFn x l ≡ₚ x :: l.
Proof.
  induction l as [|y l IH]; simpl; [done|].
  destruct (Qle_bool _ _); [done|].
  rewrite IH. apply Permutation_swap.
Qed.

Lemma sort_Permutation l : sort compareFn l ≡ₚ l.
Proof.
  induction l as [|x l IH]; simpl; [done|].
  rewrite sort_insert_Permutation. by rewrite IH.
Qed.

Lemma sort_length l : length (sort compareFn l) = length l.
Proof. by rewrite sort_Permutation. Qed.

(** The sort is stable: elements that the comparator ties with each other
    keep their order. *)
Lemma sort_insert_other (P : A → Prop) `{!∀ x, Decision (P x)} x l :
  ¬ P x → filter P (sort_insert compareFn x l) = filter P l.
Proof.
  intros Hx. induction l as [|y l IH]; simpl.
  - by rewrite filter_cons_False.
  - destruct (Qle_bool (compareFn x y) 0).
    + by rewrite filter_cons_False.
    + by rewrite !(filter_cons _ y), IH.
Qed.

Lemma sort_insert_tied (P : A → Prop) `{!∀ x, Decision (P x)} x l :
  (∀ y, P x → P y → Qle_bool (compareFn x y) 0 = true) →
  P x → filter P (sort_insert compareFn x l) = x :: filter P l.
Proof.
  intros Htie Hx. induction l as [|y l IH]; simpl.
  - by rewrite filter_cons_True.
  - destruct (Qle_bool (compareFn x y) 0) eqn:Hxy.
    + by rewrite (filter_cons_True _ x).
    + assert (¬ P y) as Hy.
      { intros Hy. specialize (Htie y Hx Hy). congruence. }
      by rewrite !(filter_cons_False _ y), IH.
Qed.

Lemma sort_stable (P : A → Prop) `{!∀ x, Decision (P x)} l :
  (∀ x y, P x → P y → Qle_bool (compareFn x y) 0 = true) →
  filter P (sort compareFn l) = filter P l.
Proof.
  intros Htie. induction l as [|x l IH]; simpl; [done|].
  destruct (decide (P x)) as [Hx|Hx].
  - rewrite sort_insert_tied, filter_cons_True, IH by auto. done.
  - rewrite sort_insert_other, filter_cons_False, IH by auto. done.
Qed.

(** When the comparator decides a total preorder [R], the result is
    sorted for [R]. *)
Context (R : relation A) `{!Transitive R}.
Hypothesis compare_le : ∀ x y, Qle_bool (compareFn x y) 0 = true → R x y.
Hypothesis compare_gt : ∀ x y, Qle_bool (compareFn x y) 0 = false → R y x.

Lemma sort_insert_sorted x l :
  StronglySorted R l → StronglySorted R (sort_insert compareFn x l).
Proof.
  induction 1 as [|y l Hl IH Hy]; simpl.
  - repeat constructor.
  - destruct (Qle_bool (compareFn x y) 0) eqn:Hxy.
    + constructor; [by constructor|].
      constructor; [by apply compare_le|].
      eapply Forall_impl; [exact Hy|]. intros z Hz.
      etrans; [by apply compare_le|done].
    + constructor; [done|].
      rewrite sort_insert_Permutation. constructor; [|done].
      by apply compare_gt.
Qed.

Lemma sort_sorted l : StronglySorted R (sort compareFn l).
Proof.
  induction l as [|x l IH]; simpl; [constructor|].
  by apply sort_insert_sorted.
Qed.

End Sort.

(** ** Lists sorted on a key without repetition *)

Section Keyed.

Context {A : Type} (key : A → nat).

#[global] Instance key_le_trans : Transitive (key_le key).
Proof. unfold key_le. intros a b c. lia. Qed.

Lemma key_le_lt l :
  StronglySorted (key_le key) l → NoDup (key <$> l) →
  StronglySorted (key_lt key) l.
Proof.
  induction 1 as [|a l Hl IH Ha]; intros Hnd; [constructor|].
  rewrite fmap_cons in Hnd. apply NoDup_cons in Hnd as [Hnotin Hnd].
  constructor; [by apply IH|].
  apply Forall_forall. intros b Hb.
  rewrite Forall_forall in Ha. specialize (Ha b Hb).
  unfold key_lt, key_le in *.
  assert (key a ≠ key b); [|lia].
  intros Heq. apply Hnotin. rewrite Heq. by apply list_elem_of_fmap_2.
Qed.

(** A sorted selection from a sorted list is a subsequence of it. *)
Lemma sorted_subseteq_sublist (t l : list A) :
  StronglySorted (key_lt key) l → StronglySorted (key_lt key) t → t ⊆ l →
  t `sublist_of` l.
Proof.
  intros Hl. revert t.
  induction Hl as [|a l Hl IH Ha]; intros t Ht Hsub.
  - destruct t as [|b t]; [done|].
    specialize (Hsub b). rewrite elem_of_nil in Hsub.
    exfalso. apply Hsub. by left.
  - destruct t as [|b t]; [apply sublist_nil_l|].
    apply StronglySorted_inv in Ht as [Ht Hb].
    rewrite Forall_forall in Ha, Hb.
    assert (b ∈ a :: l) as Hin by (apply Hsub; by left).
    apply elem_of_cons in Hin as [->|Hin].
    + apply sublist_skip, IH; [done|].
      intros c Hc.
      assert (c ∈ a :: l) as Hc' by (apply Hsub; by right).
      apply elem_of_cons in Hc' as [->|]; [|done].
      specialize (Hb a Hc). unfold key_lt in Hb. lia.
    + apply sublist_cons, IH; [by constructor; [|apply Forall_forall]|].
      intros c Hc.
      assert (c ∈ a :: l) as Hc' by (apply Hsub; done).
      apply elem_of_cons in Hc' as [->|]; [|done].
      specialize (Ha b Hin). unfold key_lt in *.
      apply elem_of_cons in Hc as [->|Hc]; [lia|].
      specialize (Hb a Hc). lia.
Qed.

End Keyed.

(** ** Strings *)

Example split_sentences :
  split isTerminator (js "One. Two?! Three")
  = [js "One"; js " Two"; js " Three"].
Proof. reflexivity. Qed.

Example split_ends :
  split isTerminator (js "..One.") = [js ""; js "One"; js ""]
  ∧ split isTerminator (js "") = [js ""]
  ∧ split isTerminator (js "?") = [js ""; js ""].
Proof. repeat split. Qed.

Example trim_ends : trim (js "  a b  ") = js "a b" ∧ trim (js "   ") = js "".
Proof. split; reflexivity. Qed.

Example slice0_ends :
  slice0 [1; 2; 3] 2 = [1; 2] ∧ slice0 [1; 2; 3] 7 = [1; 2; 3]
  ∧ slice0 [1; 2; 3] 0 = [] ∧ slice0 [1; 2; 3] (-1) = [1; 2]
  ∧ slice0 [1; 2; 3] (-5) = [].
Proof. repeat split. Qed.

Lemma split_run_pieces (P : N → Prop) sep in_run s :
  Forall P s → Forall (Forall P) (split_run sep in_run s).
Proof.
  intros Hs. revert in_run.
  induction Hs as [|c s Hc Hs IH]; intros in_run; simpl.
  - by repeat constructor.
  - destruct (sep c).
    + destruct in_run; [apply IH|]. constructor; [constructor|apply IH].
    + specialize (IH false). destruct (split_run sep false s) as [|p ps].
      * by repeat constructor.
      * apply Forall_cons in IH as [Hp Hps]. by repeat constructor.
Qed.

Lemma split_run_no_separator sep in_run s :
  Forall (Forall (λ c, sep c = false)) (split_run sep in_run s).
Proof.
  revert in_run. induction s as [|c s IH]; intros in_run; simpl.
  - by repeat constructor.
  - destruct (sep c) eqn:Hc.
    + destruct in_run; [apply IH|]. constructor; [constructor|apply IH].
    + specialize (IH false). destruct (split_run sep false s) as [|p ps].
      * by repeat constructor.
      * apply Forall_cons in IH as [Hp Hps]. by repeat constructor.
Qed.

Lemma split_run_weave sep in_run s :
  ∃ lead runs,
    (in_run = false → lead = [])
    ∧ Forall (λ c, sep c = true) lead
    ∧ length (split_run sep in_run s) = S (length runs)
    ∧ s = lead ++ weave (split_run sep in_run s) runs
    ∧ Forall (λ r, r ≠ [] ∧ Forall (λ c, sep c = true) r) runs
    ∧ ∀ i, i < length runs → in_run = true ∨ 0 < i →
           split_run sep in_run s !! i ≠ Some [].
Proof.
  revert in_run. induction s as [|c s IH]; intros in_run.
  - exists [], []. simpl. repeat split; auto. intros i Hi. lia.
  - simpl. destruct (sep c) eqn:Hc.
    + destruct (IH true) as (lead & runs & _ & Hlead & Hlen & Hs & Hruns & Hin).
      destruct in_run.
      * exists (c :: lead), runs. repeat split; auto.
        -- done.
        -- simpl. by f_equal.
      * exists [], ((c :: lead) :: runs). repeat split; auto.
        -- simpl. by rewrite Hlen.
        -- simpl. by f_equal.
        -- intros i Hi [|Hpos]; [done|].
           destruct i as [|i]; [lia|]. simpl in *. apply Hin; [lia|by left].
    + destruct (IH false) as (lead & runs & Hnil & _ & Hlen & Hs & Hruns & Hin).
      rewrite (Hnil eq_refl) in Hs. simpl in Hs.
      destruct (split_run sep false s) as [|p ps]; [done|].
      exists [], runs. repeat split; auto.
      * simpl. rewrite Hs. by destruct runs.
      * intros i Hi _. destruct i as [|i]; [done|].
        apply (Hin (S i)); [done|right; lia].
Qed.

(** The model of [split] is the split of the specification. *)
Lemma split_SplitsOn sep s : SplitsOn sep s (split sep s).
Proof.
  destruct (split_run_weave sep false s)
    as (lead & runs & Hnil & _ & Hlen & Hs & Hruns & Hin).
  rewrite (Hnil eq_refl) in Hs. exists runs. repeat split; auto.
  - apply split_run_no_separator.
  - intros i [Hpos Hi]. apply Hin; [done|by right].
Qed.

Lemma trimStart_lead s :
  ∃ l, s = l ++ trimStart s ∧ Forall (λ c, isWhiteSpace c = true) l.
Proof.
  induction s as [|c s (l & Hs & Hl)]; [by exists []|].
  simpl. destruct (isWhiteSpace c) eqn:Hc.
  - exists (c :: l). split; [simpl; by f_equal|by constructor].
  - by exists [].
Qed.

Lemma trimEnd_trail s :
  ∃ r, s = trimEnd s ++ r ∧ Forall (λ c, isWhiteSpace c = true) r
       ∧ ∀ c, last (trimEnd s) = Some c → isWhiteSpace c = false.
Proof.
  induction s as [|c s (r & Hs & Hr & Hlast)]; [by exists []|].
  simpl. destruct (trimEnd s) as [|d t] eqn:Ht.
  - destruct (isWhiteSpace c) eqn:Hc.
    + exists (c :: r). simpl in *. split; [by f_equal|]. split; [by constructor|done].
    + exists r. simpl in *. split; [by f_equal|]. split; [done|].
      intros ? [= <-]. done.
  - exists r. split; [simpl; by f_equal|]. split; [done|].
    intros c' Hc'. apply Hlast. by rewrite last_cons_cons in Hc'.
Qed.

Lemma trimStart_suffix s : trimStart s `suffix_of` s.
Proof.
  induction s as [|c s IH]; simpl; [done|].
  destruct (isWhiteSpace c); [by apply suffix_cons_r|done].
Qed.

Lemma trimEnd_prefix s : trimEnd s `prefix_of` s.
Proof.
  induction s as [|c s IH]; simpl; [done|].
  destruct (trimEnd s) as [|d t] eqn:Ht.
  - destruct (isWhiteSpace c); [apply prefix_nil|].
    by apply (prefix_cons c [] s).
  - by apply prefix_cons.
Qed.

Lemma trim_sublist s : trim s `sublist_of` s.
Proof.
  unfold trim.
  destruct (trimEnd_prefix (trimStart s)) as [k Hk].
  destruct (trimStart_suffix s) as [k' Hk'].
  rewrite Hk', Hk at 2.
  by apply sublist_inserts_l, sublist_inserts_r.
Qed.

Lemma trim_Forall (P : N → Prop) s : Forall P s → Forall P (trim s).
Proof.
  rewrite !Forall_forall. intros Hs c Hc.
  apply Hs. eapply elem_of_sublist; [done|apply trim_sublist].
Qed.

Lemma trimStart_startsClean s : startsClean (trimStart s).
Proof.
  induction s as [|c s IH]; simpl; [done|].
  destruct (isWhiteSpace c) eqn:Hc; [done|]. by simpl.
Qed.

Lemma startsClean_trimStart s : startsClean s → trimStart s = s.
Proof. destruct s as [|c s]; simpl; [done|]. by intros ->. Qed.

Lemma trimEnd_startsClean s : startsClean s → startsClean (trimEnd s).
Proof.
  destruct s as [|c s]; simpl; [done|]. intros Hc.
  destruct (trimEnd s); [by rewrite Hc|done].
Qed.

Lemma trimEnd_cons_nonempty c s :
  trimEnd s ≠ [] → trimEnd (c :: s) = c :: trimEnd s.
Proof. simpl. by destruct (trimEnd s). Qed.

Lemma trimEnd_cons_empty c s :
  trimEnd s = [] → trimEnd (c :: s) = if isWhiteSpace c then [] else [c].
Proof. simpl. by intros ->. Qed.

Lemma trimEnd_trimEnd s : trimEnd (trimEnd s) = trimEnd s.
Proof.
  induction s as [|c s IH]; [done|].
  destruct (trimEnd s) as [|d t] eqn:Ht.
  - rewrite (trimEnd_cons_empty c s Ht).
    destruct (isWhiteSpace c) eqn:Hc; [done|].
    by rewrite trimEnd_cons_empty, Hc.
  - rewrite (trimEnd_cons_nonempty c s), Ht by by rewrite Ht.
    rewrite trimEnd_cons_nonempty; by rewrite IH.
Qed.

(** [trim] is idempotent: the [sentence.trim()] of the scoring loop finds
    nothing left to strip. *)
Lemma trim_trim s : trim (trim s) = trim s.
Proof.
  unfold trim.
  rewrite (startsClean_trimStart (trimEnd (trimStart s))).
  - apply trimEnd_trimEnd.
  - apply trimEnd_startsClean, trimStart_startsClean.
Qed.

(** The model of [trim] is the trimming of the specification. *)
Lemma trim_Trimmed s : Trimmed s (trim s).
Proof.
  destruct (trimStart_lead s) as (l & Hl & Hws).
  destruct (trimEnd_trail (trimStart s)) as (r & Hr & Hwsr & Hlast).
  exists l, r. unfold trim. repeat split; auto.
  - by rewrite <- Hr.
  - pose proof (trimEnd_startsClean _ (trimStart_startsClean s)) as Hclean.
    intros c Hc. destruct (trimEnd (trimStart s)); simplify_eq/=. done.
Qed.

Lemma occurrences_app c s t :
  occurrences c (s ++ t) = occurrences c s + occurrences c t.
Proof. unfold occurrences. by rewrite filter_app, length_app. Qed.

Lemma occurrences_absent c s : Forall (λ d, d ≠ c) s → occurrences c s = 0.
Proof.
  unfold occurrences. induction 1 as [|d s Hd Hs IH]; [done|].
  by rewrite filter_cons_False.
Qed.

Lemma seq_sorted j n : StronglySorted lt (seq j n).
Proof.
  revert j. induction n as [|n IH]; intros j; simpl; constructor; [apply IH|].
  apply Forall_seq. lia.
Qed.

Lemma key_lt_of_fmap {A} (key : A → nat) (l : list A) :
  StronglySorted lt (key <$> l) → StronglySorted (key_lt key) l.
Proof.
  induction l as [|a l IH]; [constructor|].
  rewrite fmap_cons. intros [Hl Ha]%StronglySorted_inv.
  constructor; [by apply IH|]. by rewrite Forall_fmap in Ha.
Qed.

Lemma submseteq_NoDup {A} (l k : list A) : l ⊆+ k → NoDup k → NoDup l.
Proof.
  intros (k' & Hsub & Hperm)%submseteq_sublist_l Hk.
  apply (sublist_NoDup l k'); [by rewrite Hperm|done].
Qed.

Lemma slice0_take {A} (a : list A) (end_ : Z) :
  ∃ k, slice0 a end_ = take k a.
Proof. by eexists. Qed.

Lemma slice0_length {A} (a : list A) (end_ : Z) :
  (0 ≤ end_ ≤ Z.of_nat (length a))%Z →
  length (slice0 a end_) = Z.to_nat end_.
Proof.
  intros Hend. unfold slice0.
  destruct (Z.ltb_spec end_ 0); [lia|].
  rewrite length_take. lia.
Qed.

Lemma slice0_negative {A} (a : list A) (end_ : Z) :
  (end_ < 0)%Z →
  length (slice0 a end_) = Z.to_nat (Z.of_nat (length a) + end_).
Proof.
  intros Hend. unfold slice0.
  destruct (Z.ltb_spec end_ 0); [|lia].
  rewrite length_take. lia.
Qed.

Lemma sublist_full {A} (l1 l2 : list A) :
  l1 `sublist_of` l2 → length l2 ≤ length l1 → l1 = l2.
Proof.
  induction 1 as [|x l1 l2 Hsub IH|x l1 l2 Hsub IH]; simpl; intros Hlen.
  - done.
  - f_equal. apply IH. lia.
  - apply sublist_length in Hsub. lia.
Qed.

Lemma split_run_single sep in_run s :
  Forall (λ c, sep c = false) s → split_run sep in_run s = [s].
Proof.
  induction 1 as [|c s Hc Hs IH] in in_run |- *; simpl; [done|].
  by rewrite Hc, IH.
Qed.

Lemma whiteSpace_not_terminator c :
  isWhiteSpace c = true → isTerminator c = false.
Proof.
  unfold isWhiteSpace, isTerminator. intros Hc.
  repeat (apply orb_false_intro); apply N.eqb_neq; intros ->; done.
Qed.

Lemma join_occurrences c sep parts :
  occurrences c sep = 0 →
  Forall (λ p, occurrences c p = 1) parts →
  occurrences c (join sep parts) = length parts.
Proof.
  intros Hsep. induction 1 as [|p parts Hp Hparts IH]; [done|].
  destruct parts as [|q parts].
  - simpl. by rewrite Hp.
  - change (join sep (p :: q :: parts)) with (p ++ sep ++ join sep (q :: parts)).
    rewrite !occurrences_app, Hp, Hsep, IH. done.
Qed.

Lemma join_nonempty sep parts :
  parts ≠ [] → Forall (λ p, p ≠ []) parts → join sep parts ≠ [].
Proof.
  destruct 2 as [|p parts Hp Hparts]; [done|].
  destruct parts; simpl; [done|]. by destruct p.
Qed.

(** ** The character classes *)

(** A test on code units that holds of every one below a bound and of
    every one from the bound on holds of all. *)
Lemma code_units_checked (P : N → bool) (bound : nat) :
  forallb P (N.of_nat <$> seq 0 bound) = true →
  (∀ c, (N.of_nat bound ≤ c)%N → P c = true) →
  ∀ c, P c = true.
Proof.
  intros Hbelow Habove c.
  destruct (N.le_gt_cases (N.of_nat bound) c) as [Hge|Hlt]; [by apply Habove|].
  rewrite forallb_forall in Hbelow. apply Hbelow.
  apply list_elem_of_In, list_elem_of_fmap.
  exists (N.to_nat c). split; [by rewrite N2Nat.id|].
  apply elem_of_seq. lia.
Qed.

Lemma isTerminator_punctuation c :
  isTerminator c = true ↔ sentencePunctuation c.
Proof.
  unfold isTerminator, sentencePunctuation.
  rewrite !orb_true_iff, !N.eqb_eq.
  change (js ".!?") with [46; 33; 63]%N.
  rewrite !elem_of_cons, elem_of_nil. tauto.
Qed.

Lemma isWordChar_word c : isWordChar c = true ↔ wordCharacter c.
Proof.
  rewrite <- (bool_decide_eq_true (wordCharacter c)).
  assert (Bool.eqb (isWordChar c) (bool_decide (wordCharacter c)) = true)
    as Heq; [|apply Bool.eqb_prop in Heq; by rewrite Heq].
  revert c. apply (code_units_checked _ 123); [vm_compute; reflexivity|].
  intros c Hc. apply Bool.eqb_true_iff.
  assert (isWordChar c = false) as ->.
  { unfold isWordChar.
    repeat match goal with
           | |- context [(?a <=? ?b)%N] => destruct (N.leb_spec a b)
           | |- context [(?a =? ?b)%N] => destruct (N.eqb_spec a b)
           end; simpl; try done; lia. }
  symmetry. apply bool_decide_eq_false. unfold wordCharacter.
  intros Hin.
  assert (Forall (λ d, (d < 123)%N)
            (js "abcdefghijklmnopqrstuvwxyzABCDEFGHIJKLMNOPQRSTUVWXYZ0123456789_"))
    as Hall by (vm_compute; repeat constructor).
  rewrite Forall_forall in Hall. apply Hall in Hin. lia.
Qed.

Lemma isWhiteSpace_whiteSpace c :
  isWhiteSpace c = true ↔ whiteSpaceCharacter c.
Proof.
  unfold isWhiteSpace, whiteSpaceCharacter.
  rewrite !orb_true_iff, !andb_true_iff, !N.leb_le, !N.eqb_eq.
  rewrite !elem_of_cons, elem_of_nil. lia.
Qed.

Lemma replacePunctuation_replaced text :
  Forall2 replacedBySpace text (replacePunctuation text).
Proof.
  unfold replacePunctuation. apply Forall2_fmap_r, Forall_Forall2_diag.
  apply Forall_forall. intros c _. simpl. unfold replacedBySpace.
  rewrite <- isWordChar_word, <- isWhiteSpace_whiteSpace, <- orb_true_iff.
  destruct (isWordChar c || isWhiteSpace c); [left|right]; split; done.
Qed.

(** ** Word counts and scores *)

Lemma getOrZero_insert (freq : gmap (list N) nat) word n token :
  getOrZero (<[word := n]> freq) token
  = if decide (word = token) then n else getOrZero freq token.
Proof.
  unfold getOrZero. rewrite lookup_insert. by case_decide.
Qed.

Lemma wordFreq_fold (freq : gmap (list N) nat) ws token :
  getOrZero
    (foldl (λ freq word, <[word := getOrZero freq word + 1]> freq) freq ws)
    token
  = getOrZero freq token + length (filter (λ w, w = token) ws).
Proof.
  revert freq. induction ws as [|w ws IH]; intros freq; simpl; [lia|].
  rewrite IH, getOrZero_insert.
  destruct (decide (w = token)) as [->|Hne].
  - rewrite filter_cons_True by done. simpl. lia.
  - by rewrite filter_cons_False.
Qed.

Lemma wordFreq_fold_domain (freq : gmap (list N) nat) ws token :
  foldl (λ freq word, <[word := getOrZero freq word + 1]> freq) freq ws
    !! token = None
  ↔ freq !! token = None ∧ token ∉ ws.
Proof.
  revert freq. induction ws as [|w ws IH]; intros freq; simpl.
  - split; [intros ?; split; [done|apply not_elem_of_nil]|by intros [? _]].
  - rewrite IH, lookup_insert_None, not_elem_of_cons. intuition congruence.
Qed.

Lemma score_fold (count : jsstring → nat) ws (start : Q) :
  (foldl (λ score word, score + inject_Z (Z.of_nat (count word))) start ws
   == start + inject_Z (Z.of_nat (sum_list (count <$> ws))))%Q.
Proof.
  revert start. induction ws as [|w ws IH]; intros start.
  - change (start == start + 0)%Q. ring.
  - change (foldl (λ score word, score + inject_Z (Z.of_nat (count word)))
              (start + inject_Z (Z.of_nat (count w))) ws
            == start + inject_Z (Z.of_nat (count w + sum_list (count <$> ws))))%Q.
    rewrite IH, Nat2Z.inj_add, inject_Z_plus. ring.
Qed.

Lemma boosted_exact index total :
  boosted index total = true ↔ 10 * index < 3 * total.
Proof.
  unfold boosted. rewrite negb_true_iff, <- not_true_iff_false, Qle_bool_iff.
  unfold Qle. simpl. lia.
Qed.

Lemma boosted_floor index total :
  (index < floorCutoff total → boosted index total = true)
  ∧ (boosted index total = true → index ≤ floorCutoff total).
Proof.
  rewrite boosted_exact. unfold floorCutoff.
  pose proof (Nat.div_mod_eq (3 * total) 10) as Heq.
  pose proof (Nat.mod_upper_bound (3 * total) 10) as Hlt.
  split; lia.
Qed.

(** ** The sentence pool and the selection *)

Section Facts.

Variable toLowerCase : jsstring → jsstring.

Abbreviation sentenceScores' := (sentenceScores toLowerCase).
Abbreviation topSentences' := (topSentences toLowerCase).

Lemma sentences_trimmed document s :
  s ∈ sentences document → trim s = s.
Proof.
  unfold sentences. intros [_ Hs]%list_elem_of_filter.
  apply list_elem_of_fmap in Hs as (f & -> & _). apply trim_trim.
Qed.

Lemma sentences_no_terminator document :
  Forall (Forall (λ c, isTerminator c = false)) (sentences document).
Proof.
  unfold sentences. apply Forall_forall.
  intros s [_ Hs]%list_elem_of_filter.
  apply list_elem_of_fmap in Hs as (f & -> & Hf).
  apply trim_Forall.
  pose proof (split_run_no_separator isTerminator false document) as Hall.
  rewrite Forall_forall in Hall. by apply Hall.
Qed.

Lemma wordFreq_count document token :
  getOrZero (wordFreq toLowerCase document) token
  = tokenCount toLowerCase document token.
Proof. unfold wordFreq, words. by rewrite wordFreq_fold. Qed.

Lemma wordFreq_domain document token :
  wordFreq toLowerCase document !! token = None
  ↔ token ∉ longWords toLowerCase document.
Proof.
  unfold wordFreq, words. rewrite wordFreq_fold_domain, lookup_empty. tauto.
Qed.

(** A token is longer than 3 and made of word characters only. *)
Lemma longWords_tokens text :
  Forall (λ w, 3 < length w ∧ Forall (λ c, isWordChar c = true) w)
    (longWords toLowerCase text).
Proof.
  unfold longWords, split. apply Forall_forall.
  intros w [Hlen Hw]%list_elem_of_filter. split; [done|].
  set (clean := replacePunctuation (toLowerCase text)) in *.
  pose proof (split_run_no_separator isWhiteSpace false clean) as Hnows.
  assert (Forall (λ c, isWordChar c || isWhiteSpace c = true) clean) as Hclean.
  { unfold clean, replacePunctuation. apply Forall_fmap, Forall_forall.
    intros c _. simpl.
    by destruct (isWordChar c || isWhiteSpace c) eqn:Hc. }
  apply (split_run_pieces _ isWhiteSpace false) in Hclean.
  rewrite Forall_forall in Hnows, Hclean.
  specialize (Hnows w Hw). specialize (Hclean w Hw).
  rewrite Forall_forall in Hnows, Hclean. apply Forall_forall.
  intros c Hc. specialize (Hnows c Hc). specialize (Hclean c Hc).
  rewrite Hnows, orb_false_r in Hclean. done.
Qed.

Lemma scoreSentence_score document total i s :
  (score (scoreSentence toLowerCase (wordFreq toLowerCase document) total i s)
   == positionBonus (boosted i total)
      * lengthNormalized toLowerCase document s)%Q.
Proof.
  unfold scoreSentence, lengthNormalized, positionBonus. simpl.
  destruct (longWords toLowerCase s) as [|w ws] eqn:Hws.
  { simpl. destruct (boosted i total); ring. }
  set (tokens := w :: ws).
  change (length tokens) with (S (length ws)). cbv iota.
  fold (length tokens).
  pose proof (score_fold (getOrZero (wordFreq toLowerCase document))
                tokens 0%Q) as Hsum.
  rewrite (list_fmap_ext (getOrZero (wordFreq toLowerCase document))
             (tokenCount toLowerCase document) tokens) in Hsum
    by (intros; apply wordFreq_count).
  unfold Qdiv. destruct (boosted i total); rewrite Hsum; ring.
Qed.

Lemma sentenceScores_score document i s :
  sentences document !! i = Some s →
  ∃ r, sentenceScores' document !! i = Some r
       ∧ (score r
          == positionBonus (boosted i (length (sentences document)))
             * lengthNormalized toLowerCase document s)%Q.
Proof.
  intros Hs. unfold sentenceScores. rewrite list_lookup_imap, Hs. simpl.
  eexists. split; [done|]. apply scoreSentence_score.
Qed.

Lemma sentenceScores_length document :
  length (sentenceScores' document) = length (sentences document).
Proof. unfold sentenceScores. apply length_imap. Qed.

Lemma sentenceScores_index document :
  index <$> sentenceScores' document = seq 0 (length (sentences document)).
Proof.
  unfold sentenceScores. rewrite fmap_imap.
  rewrite <- (list_fmap_id (seq 0 _)). apply (imap_seq_0 _ id).
Qed.

Lemma sentenceScores_sentence document :
  sentence <$> sentenceScores' document
  = (λ s, s ++ js ".") <$> sentences document.
Proof.
  unfold sentenceScores. rewrite fmap_imap.
  rewrite <- imap_const. apply imap_ext.
  intros i s Hs. simpl.
  by rewrite (sentences_trimmed document s) by by eapply list_elem_of_lookup_2.
Qed.

Lemma sentenceScores_lookup document i r :
  sentenceScores' document !! i = Some r →
  index r = i
  ∧ ∃ s, sentences document !! i = Some s ∧ sentence r = s ++ js ".".
Proof.
  intros Hr.
  pose proof (f_equal (λ l, l !! i) (sentenceScores_index document)) as Hidx.
  pose proof (f_equal (λ l, l !! i) (sentenceScores_sentence document)) as Hsen.
  simpl in Hidx, Hsen. rewrite !list_lookup_fmap, Hr in *. simpl in *.
  symmetry in Hidx. apply lookup_seq in Hidx as [Hidx Hlt].
  split; [done|].
  destruct (sentences document !! i) as [s|]; simplify_eq/=. eauto.
Qed.

Lemma sentenceScores_sorted document :
  StronglySorted (key_lt index) (sentenceScores' document).
Proof.
  apply key_lt_of_fmap. rewrite sentenceScores_index. apply seq_sorted.
Qed.

Lemma topSentences_Permutation document summaryLength :
  topSentences' document summaryLength
  ≡ₚ slice0 (sort byScoreDesc (sentenceScores' document))
       (sliceEnd summaryLength (length (sentences document))).
Proof. apply sort_Permutation. Qed.

Lemma topSentences_submseteq document summaryLength :
  topSentences' document summaryLength ⊆+ sentenceScores' document.
Proof.
  rewrite topSentences_Permutation.
  destruct (slice0_take (sort byScoreDesc (sentenceScores' document))
              (sliceEnd summaryLength (length (sentences document))))
    as [k ->].
  rewrite <- (sort_Permutation byScoreDesc (sentenceScores' document)) at 2.
  apply sublist_submseteq, sublist_take.
Qed.

Lemma topSentences_sorted document summaryLength :
  StronglySorted (key_lt index) (topSentences' document summaryLength).
Proof.
  apply key_le_lt.
  - apply (sort_sorted byIndexAsc (key_le index)).
    + intros a b Hab%Qle_bool_iff. unfold byIndexAsc, key_le in *.
      apply Nat2Z.inj_le. rewrite Zle_Qle. lra.
    + intros a b Hab. unfold byIndexAsc, key_le in *.
      apply Nat2Z.inj_le. rewrite Zle_Qle.
      destruct (Qlt_le_dec 0 (inject_Z (Z.of_nat (index a))
                              - inject_Z (Z.of_nat (index b)))) as [?|Hle];
        [lra|].
      apply Qle_bool_iff in Hle. congruence.
  - eapply submseteq_NoDup.
    + apply (fmap_submseteq index), topSentences_submseteq.
    + rewrite sentenceScores_index. apply NoDup_seq.
Qed.

Lemma topSentences_length document summaryLength :
  length (topSentences' document summaryLength)
  = length (slice0 (sentenceScores' document)
              (sliceEnd summaryLength (length (sentences document)))).
Proof.
  rewrite topSentences_Permutation. unfold slice0.
  by rewrite !length_take, sort_length.
Qed.

Lemma topSentences_count document (sentenceCount : Z) :
  (0 ≤ sentenceCount)%Z →
  length (topSentences' document [sentenceCount])
  = Z.to_nat (Z.min sentenceCount (Z.of_nat (length (sentences document)))).
Proof.
  intros Hpos. rewrite topSentences_length, slice0_length; [done|].
  rewrite sentenceScores_length. simpl. lia.
Qed.

Lemma topSentences_sublist document summaryLength :
  topSentences' document summaryLength `sublist_of` sentenceScores' document.
Proof.
  apply (sorted_subseteq_sublist index).
  - apply sentenceScores_sorted.
  - apply topSentences_sorted.
  - intros r Hr. eapply elem_of_submseteq; [done|].
    apply topSentences_submseteq.
Qed.

(** The selection is by score: no sentence left out scores higher than
    a selected one. *)
Lemma topSentences_best document summaryLength a b :
  a ∈ topSentences' document summaryLength →
  b ∈ sentenceScores' document →
  b ∉ topSentences' document summaryLength →
  (score b <= score a)%Q.
Proof.
  rewrite !topSentences_Permutation.
  destruct (slice0_take (sort byScoreDesc (sentenceScores' document))
              (sliceEnd summaryLength (length (sentences document))))
    as [k ->].
  intros Ha Hb Hnb.
  set (sorted := sort byScoreDesc (sentenceScores' document)) in *.
  assert (b ∈ take k sorted ++ drop k sorted) as Hb'.
  { rewrite take_drop. unfold sorted. by rewrite sort_Permutation. }
  apply elem_of_app in Hb' as [Hb'|Hb']; [by destruct Hnb|].
  assert (Transitive (λ x y : ScoredSentence, (score y <= score x)%Q)).
  { intros x y z ? ?. by apply Qle_trans with (score y). }
  apply (StronglySorted_app_1_elem_of
           (λ x y : ScoredSentence, (score y <= score x)%Q)
           (take k sorted) (drop k sorted) a b); [|done|done].
  rewrite take_drop. apply (sort_sorted byScoreDesc).
  - done.
  - intros x y Hxy%Qle_bool_iff. unfold byScoreDesc in Hxy. lra.
  - intros x y Hxy. unfold byScoreDesc in Hxy.
    destruct (Qlt_le_dec 0 (score y - score x)) as [?|Hle]; [lra|].
    apply Qle_bool_iff in Hle. congruence.
Qed.

Lemma topSentences_text_sublist document summaryLength :
  sentence <$> topSentences' document summaryLength
  `sublist_of` (λ s, s ++ js ".") <$> sentences document.
Proof.
  rewrite <- sentenceScores_sentence.
  apply fmap_sublist, topSentences_sublist.
Qed.

Lemma topSentences_all document summaryLength :
  length (sentences document) ≤ length (topSentences' document summaryLength) →
  sentence <$> topSentences' document summaryLength
  = (λ s, s ++ js ".") <$> sentences document.
Proof.
  intros Hlen. apply sublist_full; [apply topSentences_text_sublist|].
  by rewrite !length_fmap.
Qed.

(** Each selected sentence holds one full stop, its last code unit. *)
Lemma topSentences_one_stop document summaryLength :
  Forall (λ t, occurrences 46 t = 1)
    (sentence <$> topSentences' document summaryLength).
Proof.
  apply Forall_forall. intros t Ht.
  eapply elem_of_sublist in Ht; [|apply topSentences_text_sublist].
  apply list_elem_of_fmap in Ht as (s & -> & Hs).
  pose proof (sentences_no_terminator document) as Hall.
  rewrite Forall_forall in Hall. specialize (Hall s Hs).
  rewrite occurrences_app, occurrences_absent; [done|].
  eapply Forall_impl; [exact Hall|]. by intros c Hc ->.
Qed.

Lemma summarizedText_stops document summaryLength :
  occurrences 46 (summarizedText toLowerCase document summaryLength)
  = length (topSentences' document summaryLength).
Proof.
  unfold summarizedText. rewrite join_occurrences.
  - by rewrite length_fmap.
  - done.
  - apply topSentences_one_stop.
Qed.

Lemma summarizedText_nonempty document summaryLength :
  topSentences' document summaryLength ≠ [] →
  summarizedText toLowerCase document summaryLength ≠ [].
Proof.
  intros Htop Htext.
  pose proof (summarizedText_stops document summaryLength) as Hstops.
  rewrite Htext in Hstops.
  destruct (topSentences' document summaryLength); done.
Qed.

Lemma blank_trim document :
  Forall (λ c, isWhiteSpace c = true) document ↔ trim document = [].
Proof.
  split.
  - intros Hws. unfold trim.
    assert (trimStart document = []) as ->; [|done].
    induction Hws as [|c s Hc Hs IH]; simpl; [done|]. by rewrite Hc.
  - intros Hblank.
    destruct (trim_Trimmed document) as (l & r & Hdoc & Hl & Hr & _).
    rewrite Hblank in Hdoc. rewrite Hdoc. by apply Forall_app.
Qed.

Lemma blank_no_sentences document :
  trim document = [] → sentences document = [].
Proof.
  intros Hblank. destruct (trim_Trimmed document) as (l & r & Hdoc & Hl & Hr & _).
  rewrite Hblank in Hdoc. simpl in Hdoc.
  unfold sentences, split. rewrite split_run_single.
  - simpl. rewrite Hblank. done.
  - rewrite Hdoc. apply Forall_app. split.
    + eapply Forall_impl; [exact Hl|]. apply whiteSpace_not_terminator.
    + eapply Forall_impl; [exact Hr|]. apply whiteSpace_not_terminator.
Qed.

(** A click on blank input: a toast and nothing else. *)
Lemma click_blank st :
  trim (inputText st) = [] →
  click toLowerCase st
  = {| state := st; toasts := [toastNoText]; timers := [] |}.
Proof. intros Hblank. unfold click, summarizeText. simpl. by rewrite Hblank. Qed.

(** A click on other input: the timer fires on the processing state. *)
Lemma click_timeout st :
  trim (inputText st) ≠ [] →
  click toLowerCase st
  = onTimeout toLowerCase
      {| timer_inputText := inputText st;
         timer_summaryLength := summaryLength st;
         timer_delay := 1000 |}
      {| state := setIsProcessing true st; toasts := []; timers := [] |}.
Proof.
  intros Htext. unfold click, summarizeText. simpl.
  by destruct (trim (inputText st)).
Qed.

Lemma click_summary st :
  sentences (inputText st) ≠ [] →
  topSentences' (inputText st) (summaryLength st) ≠ [] →
  summary (state (click toLowerCase st))
  = summarizedText toLowerCase (inputText st) (summaryLength st).
Proof.
  intros Hpool Htop. rewrite click_timeout.
  - unfold onTimeout. simpl.
    destruct (sentences (inputText st)); [done|]. simpl.
    pose proof (summarizedText_nonempty _ _ Htop) as Htext.
    by destruct (summarizedText toLowerCase (inputText st) (summaryLength st)).
  - intros Hblank. by apply Hpool, blank_no_sentences.
Qed.

End Facts.

(** * The statements of the specification *)

Section Claims.

Variable toLowerCase : jsstring → jsstring.

Abbreviation sentenceScores' := (sentenceScores toLowerCase).
Abbreviation topSentences' := (topSentences toLowerCase).
Abbreviation summarizedText' := (summarizedText toLowerCase).
Abbreviation click' := (click toLowerCase).

(** C1: one frequency table is built over the whole document: the text
    is lowercased, every character that is not a word character (a letter,
    a digit, the underscore) and not white space is replaced by a space and
    every other character is kept, the result is split on runs of white
    space, and the tokens of length at most 3 are dropped; the table gives
    each token its number of occurrences among these tokens.  A sentence
    is tokenized in the same way, and the score of an eligible sentence
    is the sum of the table's counts of its own tokens divided by the
    number of its tokens, times the position bonus of C3; without
    tokens it is 0. *)
Theorem C1_frequency_scores document :
  (∀ c, isWordChar c = true ↔ wordCharacter c)
  ∧ (∀ c, isWhiteSpace c = true ↔ whiteSpaceCharacter c)
  ∧ (∀ text, Forall2 replacedBySpace text (replacePunctuation text))
  ∧ (∀ text,
       ∃ replaced pieces,
         Forall2 replacedBySpace (toLowerCase text) replaced
         ∧ SplitsOn isWhiteSpace replaced pieces
         ∧ longWords toLowerCase text = filter (λ w, 3 < length w) pieces)
  ∧ (∃ pieces,
      SplitsOn isWhiteSpace (replacePunctuation (toLowerCase document)) pieces
      ∧ words toLowerCase document = filter (λ w, 3 < length w) pieces)
  ∧ Forall (λ w, 3 < length w ∧ Forall (λ c, isWordChar c = true) w)
      (words toLowerCase document)
  ∧ (∀ token,
       getOrZero (wordFreq toLowerCase document) token
       = length (filter (λ w, w = token) (words toLowerCase document)))
  ∧ (∀ token,
       wordFreq toLowerCase document !! token = None
       ↔ token ∉ words toLowerCase document)
  ∧ ∀ i s, sentences document !! i = Some s →
      ∃ r, sentenceScores' document !! i = Some r
        ∧ (score r
           == positionBonus (boosted i (length (sentences document)))
              * lengthNormalized toLowerCase document s)%Q
        ∧ (boosted i (length (sentences document)) = false →
             (score r == lengthNormalized toLowerCase document s)%Q)
        ∧ (longWords toLowerCase s = [] → (score r == 0)%Q)
        ∧ (longWords toLowerCase s ≠ [] →
             (lengthNormalized toLowerCase document s
              == inject_Z (Z.of_nat
                   (sum_list
                      (getOrZero (wordFreq toLowerCase document)
                         <$> longWords toLowerCase s)))
                 / inject_Z (Z.of_nat (length (longWords toLowerCase s))))%Q).
Proof.
  split; [apply isWordChar_word|].
  split; [apply isWhiteSpace_whiteSpace|].
  split; [apply replacePunctuation_replaced|].
  split.
  { intros text. eexists _, _.
    split; [apply replacePunctuation_replaced|].
    split; [apply split_SplitsOn|done]. }
  split; [|split; [|split; [|split]]].
  - eexists. split; [apply split_SplitsOn|done].
  - apply longWords_tokens.
  - apply wordFreq_count.
  - apply wordFreq_domain.
  - intros i s Hs.
    destruct (sentenceScores_score toLowerCase document i s Hs)
      as (r & Hr & Hscore).
    exists r. split; [done|]. split; [done|].
    split; [|split].
    + intros Hplain. rewrite Hplain in Hscore. rewrite Hscore.
      unfold positionBonus. ring.
    + intros Hnone. rewrite Hscore. unfold lengthNormalized.
      rewrite Hnone. ring.
    + intros Hsome. unfold lengthNormalized.
      rewrite (list_fmap_ext (getOrZero (wordFreq toLowerCase document))
                 (tokenCount toLowerCase document))
        by (intros; apply wordFreq_count).
      by destruct (longWords toLowerCase s).
Qed.

(** C3, as the code has it: the score of the sentence at position [i]
    of a pool of [total] sentences is its length-normalized score times
    1.5 exactly when [i < 0.3 * total], that is [10 * i < 3 * total], and
    is the length-normalized score otherwise.  The cutoff is not rounded
    down: every index below [floor(0.3 * total)] gets the bonus, and so
    does the index [floor(0.3 * total)] itself when [0.3 * total] is not
    an integer. *)
Theorem C3_position_bonus document i s :
  sentences document !! i = Some s →
  let total := length (sentences document) in
  ∃ r, sentenceScores' document !! i = Some r
    ∧ (10 * i < 3 * total →
         (score r == (3 # 2) * lengthNormalized toLowerCase document s)%Q)
    ∧ (¬ 10 * i < 3 * total →
         (score r == lengthNormalized toLowerCase document s)%Q)
    ∧ (i < floorCutoff total → 10 * i < 3 * total)
    ∧ (10 * i < 3 * total → i ≤ floorCutoff total)
    ∧ (i = floorCutoff total →
         (10 * i < 3 * total ↔ (3 * total) `mod` 10 ≠ 0)).
Proof.
  intros Hs total.
  destruct (sentenceScores_score toLowerCase document i s Hs)
    as (r & Hr & Hscore).
  fold total in Hscore. exists r. split; [done|].
  pose proof (boosted_exact i total) as Hexact.
  pose proof (boosted_floor i total) as [Hbelow Habove].
  rewrite Hexact in Hbelow, Habove.
  split; [|split; [|split; [|split]]]; [| |done|done|].
  - intros Hlt. apply Hexact in Hlt. rewrite Hlt in Hscore. done.
  - intros Hge. destruct (boosted i total).
    + destruct Hge. by apply Hexact.
    + rewrite Hscore. unfold positionBonus. ring.
  - intros ->. unfold floorCutoff.
    pose proof (Nat.div_mod_eq (3 * total) 10).
    pose proof (Nat.mod_upper_bound (3 * total) 10). lia.
Qed.

(** C2: the sentence pool is made of the pieces of the document split
    on runs of one or more of [.], [!] and [?] (the separator characters
    are these three and no other), each trimmed of the white space at its
    ends, without those of trimmed length at most 10; the survivors keep
    their order, and the entry of [sentenceScores] at position [i] of the
    surviving list carries the index [i] and the [i]-th survivor. *)
Theorem C2_sentence_pool document :
  (∀ c, isTerminator c = true ↔ sentencePunctuation c)
  ∧ (∀ c, isTerminator c = true ↔ c = 46%N ∨ c = 33%N ∨ c = 63%N)
  ∧ (∀ c, isWhiteSpace c = true ↔ whiteSpaceCharacter c)
  ∧ (∃ pieces,
      SplitsOn isTerminator document pieces
      ∧ ∃ trimmed,
          Forall2 Trimmed pieces trimmed
          ∧ sentences document = filter (λ s, 10 < length s) trimmed
          ∧ sentences document `sublist_of` trimmed
          ∧ ∀ s, s ∈ sentences document ↔ s ∈ trimmed ∧ 10 < length s)
  ∧ index <$> sentenceScores' document
    = seq 0 (length (sentences document))
  ∧ ∀ i r, sentenceScores' document !! i = Some r →
      index r = i
      ∧ ∃ s, sentences document !! i = Some s ∧ sentence r = s ++ js ".".
Proof.
  split; [apply isTerminator_punctuation|].
  split.
  { intros c. unfold isTerminator. rewrite !orb_true_iff, !N.eqb_eq. tauto. }
  split; [apply isWhiteSpace_whiteSpace|].
  split; [|split].
  - exists (split isTerminator document). split; [apply split_SplitsOn|].
    exists (trim <$> split isTerminator document).
    split; [|split; [|split]].
    + apply Forall2_fmap_r, Forall_Forall2_diag, Forall_forall.
      intros f _. apply trim_Trimmed.
    + done.
    + apply sublist_filter.
    + intros s. unfold sentences. rewrite list_elem_of_filter. tauto.
  - apply sentenceScores_index.
  - apply sentenceScores_lookup.
Qed.

(** C4: with at least one eligible sentence and a requested count of at
    least 1, the summary holds exactly min(count, eligible) sentences:
    that many entries are selected, the text set as the summary is their
    join and holds that many full stops; a count that reaches the size
    of the pool returns the whole pool in order (so 1000 on three
    eligible sentences returns the three, and a pool of one sentence
    returns that sentence for every count). *)
Theorem C4_summary_size document (sentenceCount : Z) :
  sentences document ≠ [] →
  (1 ≤ sentenceCount)%Z →
  let top := topSentences' document [sentenceCount] in
  let eligible := length (sentences document) in
  length top = Z.to_nat (Z.min sentenceCount (Z.of_nat eligible))
  ∧ length top = Nat.min (Z.to_nat sentenceCount) eligible
  ∧ (∀ st, inputText st = document → summaryLength st = [sentenceCount] →
       summary (state (click' st)) = join (js " ") (sentence <$> top))
  ∧ occurrences 46 (join (js " ") (sentence <$> top)) = length top
  ∧ ((Z.of_nat eligible ≤ sentenceCount)%Z →
       sentence <$> top = (λ s, s ++ js ".") <$> sentences document)
  ∧ (eligible = 3 → sentenceCount = 1000%Z → length top = 3)
  ∧ (∀ s, sentences document = [s] →
       join (js " ") (sentence <$> top) = s ++ js ".").
Proof.
  intros Hpool Hcount top eligible.
  assert (length top = Z.to_nat (Z.min sentenceCount (Z.of_nat eligible)))
    as Hlen by (apply topSentences_count; lia).
  assert (0 < eligible) as Hpos.
  { unfold eligible. destruct (sentences document); [done|simpl; lia]. }
  assert ((Z.of_nat eligible ≤ sentenceCount)%Z →
          sentence <$> top = (λ s, s ++ js ".") <$> sentences document)
    as Hall.
  { intros Hle. apply topSentences_all. fold top eligible. lia. }
  split; [done|]. split; [lia|]. split; [|split; [|split; [|split]]].
  - intros st <- Hst.
    rewrite click_summary; rewrite ?Hst; [done..|].
    fold top. intros Htop. rewrite Htop in Hlen. simpl in Hlen. lia.
  - apply (summarizedText_stops toLowerCase).
  - done.
  - intros Hthree ->. lia.
  - intros s Hs. rewrite Hall; [by rewrite Hs|].
    unfold eligible. rewrite Hs. simpl. lia.
Qed.

(** C5: the selected sentences stand in the summary in the order of
    their positions in the document: the selection is a subsequence of
    the scored pool with strictly ascending indices, whatever the scores,
    although it is made by score (no sentence left out scores higher than
    a selected one). *)
Theorem C5_source_order document summaryLength :
  let top := topSentences' document summaryLength in
  top `sublist_of` sentenceScores' document
  ∧ StronglySorted lt (index <$> top)
  ∧ sentence <$> top `sublist_of` (λ s, s ++ js ".") <$> sentences document
  ∧ summarizedText' document summaryLength
    = join (js " ") (sentence <$> top)
  ∧ ∀ a b, a ∈ top → b ∈ sentenceScores' document → b ∉ top →
      (score b <= score a)%Q.
Proof.
  intros top. split; [|split; [|split; [|split]]].
  - apply topSentences_sublist.
  - apply (StronglySorted_fmap index (key_lt index) lt); [done|].
    apply topSentences_sorted.
  - apply topSentences_text_sublist.
  - done.
  - apply topSentences_best.
Qed.


(** C10: on input that is empty or only white space the handler returns
    at once: it shows the "No Text" toast, sets no timer and leaves the
    state, hence the displayed summary, as it was; the diagnostic text
    is not set and earlier output is not cleared. *)
Theorem C10_blank_input_frame (w : World) :
  Forall (λ c, isWhiteSpace c = true) (inputText (state w)) →
  summarizeText w = toast toastNoText w
  ∧ state (summarizeText w) = state w
  ∧ timers (summarizeText w) = timers w
  ∧ state (fireTimers toLowerCase
             (summarizeText
                {| state := state w; toasts := toasts w; timers := [] |}))
    = state w.
Proof.
  intros Hblank%blank_trim. unfold summarizeText. simpl. by rewrite Hblank.
Qed.

(** C6, as the code has it: a document that is not blank and yields no
    eligible sentence gets the "no valid sentences" text as its summary
    (nothing is thrown, no toast is shown); a blank document gets the
    "No Text" toast and the state is left as it was. *)
Theorem C6_no_valid_sentences st :
  sentences (inputText st) = [] →
  (trim (inputText st) ≠ [] →
     click' st
     = {| state := setIsProcessing false (setSummary noValidSentences st);
          toasts := []; timers := [] |})
  ∧ (trim (inputText st) = [] →
     click' st = {| state := st; toasts := [toastNoText]; timers := [] |}).
Proof.
  intros Hpool. split.
  - intros Htext. rewrite click_timeout by done.
    unfold onTimeout. simpl. by rewrite Hpool.
  - apply click_blank.
Qed.

(** C7, as the code has it: with at least one eligible sentence a
    requested count of at least 1 selects at least one sentence; a count
    below 1 is not raised to 1: 0 selects nothing and the summary becomes
    the fallback text, and a negative count takes that many sentences
    off the pool size. *)
Theorem C7_requested_count document (sentenceCount : Z) :
  sentences document ≠ [] →
  let top := topSentences' document [sentenceCount] in
  ((1 ≤ sentenceCount)%Z → top ≠ [])
  ∧ (sentenceCount = 0%Z →
       top = []
       ∧ ∀ st, inputText st = document → summaryLength st = [sentenceCount] →
           summary (state (click' st)) = couldNotGenerate)
  ∧ ((sentenceCount < 0)%Z →
       length top
       = Z.to_nat (Z.of_nat (length (sentences document)) + sentenceCount)).
Proof.
  intros Hpool top.
  assert (0 < length (sentences document)) as Hpos.
  { destruct (sentences document); [done|simpl; lia]. }
  split; [|split].
  - intros Hcount Htop.
    pose proof (topSentences_count toLowerCase document sentenceCount) as Hlen.
    fold top in Hlen. rewrite Htop in Hlen. simpl in Hlen. lia.
  - intros ->.
    assert (top = []) as Htop.
    { apply length_zero_iff_nil. unfold top.
      rewrite topSentences_count; lia. }
    split; [done|]. intros st <- Hst.
    rewrite click_timeout.
    + unfold onTimeout. simpl. destruct (sentences (inputText st)); [done|].
      simpl. unfold summarizedText. rewrite Hst. fold top. by rewrite Htop.
    + intros Hblank. by apply Hpool, blank_no_sentences.
  - intros Hneg. unfold top.
    rewrite topSentences_length, slice0_negative.
    + rewrite sentenceScores_length. simpl. lia.
    + simpl. lia.
Qed.

(** C8: two clicks with the same document and the same requested count
    produce the same output, whatever else the two states hold: the same
    toasts, and the same summary text whenever one is set (on blank
    input none is set and each state stays as it was). *)
Theorem C8_deterministic st1 st2 :
  inputText st1 = inputText st2 →
  summaryLength st1 = summaryLength st2 →
  toasts (click' st1) = toasts (click' st2)
  ∧ timers (click' st1) = timers (click' st2)
  ∧ (trim (inputText st1) ≠ [] →
       summary (state (click' st1)) = summary (state (click' st2))
       ∧ isProcessing (state (click' st1)) = isProcessing (state (click' st2)))
  ∧ (trim (inputText st1) = [] →
       state (click' st1) = st1 ∧ state (click' st2) = st2).
Proof.
  intros Htext Hlen.
  destruct (trim (inputText st1)) as [|c t] eqn:Htrim.
  - rewrite !click_blank by congruence. done.
  - rewrite !click_timeout by congruence.
    unfold onTimeout. simpl. rewrite <- Htext, <- Hlen.
    destruct (sentences (inputText st1)); done.
Qed.

End Claims.

(** * Concrete documents *)

(** C3 as stated fails on a pool of one sentence: [floor(0.3 * 1)] is 0,
    so by the claim the only sentence keeps its length-normalized score 1,
    while the code compares [0 < 0.3] and scores it 1.5. *)
Lemma C3_counterexample :
  let document := js "Summaries need words." in
  ∃ r s,
    sentences document = [s]
    ∧ sentenceScores toLowerCase_latin document = [r]
    ∧ index r = 0
    ∧ ¬ index r < floorCutoff (length (sentences document))
    ∧ (lengthNormalized toLowerCase_latin document s == 1)%Q
    ∧ (score r == 3 # 2)%Q
    ∧ ¬ (score r == lengthNormalized toLowerCase_latin document s)%Q.
Proof.
  eexists _, _. split; [vm_compute; reflexivity|].
  split; [vm_compute; reflexivity|].
  vm_compute. repeat split; try done; lia.
Qed.

Lemma C3_position_bonus_witness :
  sentences (js "Summaries need words.") !! 0
  = Some (js "Summaries need words")
  ∧ ∃ r, sentenceScores toLowerCase_latin (js "Summaries need words.") !! 0
         = Some r
         ∧ (score r
            == (3 # 2) * lengthNormalized toLowerCase_latin
                           (js "Summaries need words.")
                           (js "Summaries need words"))%Q.
Proof.
  assert (sentences (js "Summaries need words.") !! 0
          = Some (js "Summaries need words")) as Hs
    by (vm_compute; reflexivity).
  split; [exact Hs|].
  destruct (C3_position_bonus toLowerCase_latin _ _ _ Hs)
    as (r & Hr & Hbonus & _).
  exists r. split; [exact Hr|]. apply Hbonus. vm_compute. lia.
Defined.

Lemma C4_summary_size_witness :
  sentences (js "Summaries need words. Another sentence is here. And a third one follows.") ≠ []
  ∧ (1 ≤ 1000)%Z
  ∧ length (topSentences toLowerCase_latin
              (js "Summaries need words. Another sentence is here. And a third one follows.")
              [1000%Z]) = 3.
Proof.
  assert (sentences (js "Summaries need words. Another sentence is here. And a third one follows.") ≠ [])
    as Hpool by (vm_compute; discriminate).
  assert (1 ≤ 1000)%Z as Hcount by lia.
  split; [exact Hpool|]. split; [exact Hcount|].
  destruct (C4_summary_size toLowerCase_latin _ _ Hpool Hcount)
    as (_ & _ & _ & _ & _ & Hthree & _).
  apply Hthree; vm_compute; reflexivity.
Defined.

(** C6 as stated fails on the empty document: the handler returns before
    the algorithm runs, shows the "No Text" toast and leaves the summary
    as it was, so the "no valid sentences" text is not the result. *)
Lemma C6_counterexample :
  trim (inputText (st0 "" 3 "")) = []
  ∧ sentences (inputText (st0 "" 3 "")) = []
  ∧ summary (state (click toLowerCase_latin (st0 "" 3 ""))) = js ""
  ∧ summary (state (click toLowerCase_latin (st0 "" 3 ""))) ≠ noValidSentences
  ∧ toasts (click toLowerCase_latin (st0 "" 3 "")) = [toastNoText].
Proof. vm_compute. repeat split; done. Qed.

Lemma C6_no_valid_sentences_witness :
  sentences (inputText (st0 "... . !!" 3 "")) = []
  ∧ summary (state (click toLowerCase_latin (st0 "... . !!" 3 "")))
    = noValidSentences.
Proof.
  assert (sentences (inputText (st0 "... . !!" 3 "")) = []) as Hpool
    by (vm_compute; reflexivity).
  split; [exact Hpool|].
  destruct (C6_no_valid_sentences toLowerCase_latin _ Hpool) as [Hrun _].
  rewrite Hrun; [reflexivity|]. vm_compute. discriminate.
Defined.

(** C7 as stated fails for a requested count of 0: one sentence is
    eligible, none is selected, and the summary is the fallback text. *)
Lemma C7_counterexample :
  sentences (inputText (st0 "Summaries need words." 0 ""))
  = [js "Summaries need words"]
  ∧ topSentences toLowerCase_latin (js "Summaries need words.") [0%Z] = []
  ∧ summary (state (click toLowerCase_latin (st0 "Summaries need words." 0 "")))
    = couldNotGenerate.
Proof. vm_compute. repeat split; done. Qed.

Lemma C7_requested_count_witness :
  sentences (js "Summaries need words.") ≠ []
  ∧ topSentences toLowerCase_latin (js "Summaries need words.") [1%Z] ≠ []
  ∧ topSentences toLowerCase_latin (js "Summaries need words.") [0%Z] = [].
Proof.
  assert (sentences (js "Summaries need words.") ≠ []) as Hpool
    by (vm_compute; discriminate).
  split; [exact Hpool|].
  split.
  - destruct (C7_requested_count toLowerCase_latin _ 1 Hpool) as [Hone _].
    apply Hone. lia.
  - destruct (C7_requested_count toLowerCase_latin _ 0 Hpool)
      as (_ & Hzero & _).
    apply Hzero. reflexivity.
Defined.

Lemma C8_deterministic_witness :
  inputText (st0 "Summaries need words. Another sentence is here." 1 "")
  = inputText (st0 "Summaries need words. Another sentence is here." 1 "shown before")
  ∧ summary (state (click toLowerCase_latin
                      (st0 "Summaries need words. Another sentence is here." 1 "")))
    = summary (state (click toLowerCase_latin
                        (st0 "Summaries need words. Another sentence is here." 1
                           "shown before"))).
Proof.
  split; [reflexivity|].
  destruct (C8_deterministic toLowerCase_latin
              (st0 "Summaries need words. Another sentence is here." 1 "")
              (st0 "Summaries need words. Another sentence is here." 1 "shown before")
              eq_refl eq_refl) as (_ & _ & Hrun & _).
  apply Hrun. vm_compute. discriminate.
Defined.

Lemma C10_blank_input_frame_witness :
  let w := {| state := st0 "  " 3 "shown before"; toasts := []; timers := [] |} in
  Forall (λ c, isWhiteSpace c = true) (inputText (state w))
  ∧ summary (state (summarizeText w)) = js "shown before"
  ∧ timers (summarizeText w) = [].
Proof.
  intros w.
  assert (Forall (λ c, isWhiteSpace c = true) (inputText (state w))) as Hblank
    by (repeat constructor).
  split; [exact Hblank|].
  destruct (C10_blank_input_frame toLowerCase_latin w Hblank)
    as (_ & Hstate & Htimers & _).
  rewrite Hstate, Htimers. split; reflexivity.
Defined.

(** The scenario of the specification.  Its words of more than three
    letters all occur once, so the four sentences differ by the position
    bonus only, which the first two of them get. *)
Example scenario_riverbank :
  summary (state (click toLowerCase_latin
    (st0 "The quick brown fox jumps over the lazy dog near the riverbank. Foxes are cunning animals known for their agility. The dog barked loudly at the fox. Riverbanks are common fox habitats in rural areas."
       2 "")))
  = js "The quick brown fox jumps over the lazy dog near the riverbank. Foxes are cunning animals known for their agility.".
Proof. vm_compute. reflexivity. Qed.

(** * The word count *)

Lemma weave_length pieces runs :
  length pieces = S (length runs) →
  Forall (λ p : jsstring, p ≠ []) pieces →
  Forall (λ r : jsstring, r ≠ []) runs →
  length pieces + length runs ≤ length (weave pieces runs).
Proof.
  revert runs. induction pieces as [|p pieces IH]; intros runs Hlen Hp Hr.
  - done.
  - apply Forall_cons in Hp as [Hp Hps].
    destruct runs as [|r runs].
    + destruct pieces; [|done]. simpl. destruct p; [done|simpl; lia].
    + apply Forall_cons in Hr as [Hr Hrs]. simpl in *.
      destruct pieces as [|q pieces]; [done|].
      rewrite !length_app.
      assert (length (q :: pieces) = S (length runs)) as Hlen' by lia.
      specialize (IH runs Hlen' Hps Hrs).
      destruct p; [done|]. destruct r; [done|]. simpl in *. lia.
Qed.

Lemma weave_last_run pieces runs :
  length pieces = S (length runs) →
  runs ≠ [] →
  last pieces = Some [] →
  Forall (λ r, r ≠ [] ∧ Forall (λ c, isWhiteSpace c = true) r) runs →
  ∃ c, last (weave pieces runs) = Some c ∧ isWhiteSpace c = true.
Proof.
  revert runs. induction pieces as [|p pieces IH]; intros runs Hlen Hne Hlast Hr.
  - done.
  - destruct runs as [|r runs]; [done|].
    apply Forall_cons in Hr as [[Hr Hws] Hrs].
    destruct pieces as [|q pieces]; [done|].
    rewrite last_cons_cons in Hlast.
    change (weave (p :: q :: pieces) (r :: runs))
      with (p ++ r ++ weave (q :: pieces) runs).
    destruct runs as [|r' runs].
    + destruct pieces; [|done]. simpl in Hlast. simplify_eq.
      simpl. rewrite app_nil_r.
      destruct (last r) as [c|] eqn:Hc.
      * exists c. split.
        -- rewrite last_app. by rewrite Hc.
        -- apply last_Some in Hc as [r' ->].
           apply Forall_app in Hws as [_ Hws]. by apply Forall_cons in Hws as [? _].
      * apply last_None in Hc. done.
    + destruct (IH (r' :: runs)) as (c & Hc & Hwsc); [simpl in *; lia|done..|].
      exists c. split; [|done]. by rewrite !last_app, Hc.
Qed.

(** The pieces that [getWordCount] counts on text that is not blank: none
    of them is empty. *)
Lemma trimmed_pieces_nonempty text :
  trim text ≠ [] →
  Forall (λ w, w ≠ []) (split isWhiteSpace (trim text)).
Proof.
  intros Htext.
  destruct (trim_Trimmed text) as (_ & _ & _ & _ & _ & Hhead & Hlast).
  destruct (split_SplitsOn isWhiteSpace (trim text))
    as (runs & Hlen & Hweave & Hruns & _ & Hinner).
  set (pieces := split isWhiteSpace (trim text)) in *.
  apply Forall_lookup. intros i w Hi ->.
  destruct (decide (i = 0)) as [->|Hpos].
  - destruct pieces as [|p pieces]; simplify_eq/=.
    destruct runs as [|r runs].
    + by destruct pieces; simplify_eq/=.
    + apply Forall_cons in Hruns as [[Hr Hws] _].
      destruct r as [|c r]; [done|]. apply Forall_cons in Hws as [Hc _].
      destruct pieces; [done|].
      rewrite Hweave in Hhead. specialize (Hhead c eq_refl). congruence.
  - destruct (decide (i < length runs)) as [Hlt|Hge].
    + apply (Hinner i); [lia|done].
    + assert (i = length runs) as ->.
      { apply lookup_lt_Some in Hi. lia. }
      assert (last pieces = Some []) as Hl.
      { rewrite last_lookup, Hlen. done. }
      destruct (weave_last_run pieces runs) as (c & Hc & Hws); [done| |done..|].
      * destruct runs; [simpl in *; lia|done].
      * rewrite <- Hweave in Hc. specialize (Hlast c Hc). congruence.
Qed.

(** X1: the word count is 0 exactly on blank text, and a text of [n]
    words is at least [2 * n - 1] code units long. *)
Theorem getWordCount_blank text :
  (getWordCount text = 0 ↔ Forall (λ c, isWhiteSpace c = true) text)
  ∧ 2 * getWordCount text ≤ length text + 1.
Proof.
  unfold getWordCount. rewrite blank_trim.
  destruct (trim text) as [|c t] eqn:Htrim.
  - split; [done|lia].
  - rewrite <- Htrim.
    assert (trim text ≠ []) as Hne by by rewrite Htrim.
    pose proof (trimmed_pieces_nonempty text Hne) as Hpieces.
    destruct (split_SplitsOn isWhiteSpace (trim text))
      as (runs & Hlen & Hweave & Hruns & _ & _).
    pose proof (weave_length _ runs Hlen Hpieces) as Hbound.
    rewrite <- Hweave in Hbound.
    pose proof (sublist_length _ _ (trim_sublist text)) as Hsub.
    split.
    + split; [|done]. rewrite Hlen. done.
    + assert (Forall (λ r : jsstring, r ≠ []) runs) as Hr.
      { eapply Forall_impl; [exact Hruns|]. by intros r [? _]. }
      specialize (Hbound Hr). lia.
Qed.

(** X2: on text that is not blank the count is the number of its words:
    the trimmed text is made of that many pieces, none empty and none
    holding white space, with a non-empty run of white space between any
    two neighbours. *)
Theorem getWordCount_words text :
  trim text ≠ [] →
  ∃ words runs,
    getWordCount text = length words
    ∧ length words = S (length runs)
    ∧ trim text = weave words runs
    ∧ Forall (λ w, w ≠ [] ∧ Forall (λ c, isWhiteSpace c = false) w) words
    ∧ Forall (λ r, r ≠ [] ∧ Forall (λ c, isWhiteSpace c = true) r) runs.
Proof.
  intros Hne.
  pose proof (trimmed_pieces_nonempty text Hne) as Hpieces.
  destruct (split_SplitsOn isWhiteSpace (trim text))
    as (runs & Hlen & Hweave & Hruns & Hfree & _).
  exists (split isWhiteSpace (trim text)), runs.
  split; [|split; [done|split; [done|split; [|done]]]].
  - unfold getWordCount. by destruct (trim text).
  - apply Forall_and. done.
Qed.

(** * The events of the TextSummarizer component *)

Section Events.

Variable toLowerCase : jsstring → jsstring.

Lemma topSentences_slider document value :
  sliderValue value → sentences document ≠ [] →
  1 ≤ length (topSentences toLowerCase document value) ≤ 10.
Proof.
  intros (v & -> & Hv) Hpool.
  rewrite topSentences_count by lia.
  destruct (sentences document); [done|]. simpl. lia.
Qed.

Lemma onTimeout_summary t w :
  summary (state (onTimeout toLowerCase t w))
  = match sentences (timer_inputText t) with
    | [] => noValidSentences
    | _ :: _ =>
        match summarizedText toLowerCase (timer_inputText t)
                (timer_summaryLength t) with
        | [] => couldNotGenerate
        | c :: text => c :: text
        end
    end.
Proof.
  unfold onTimeout. destruct (sentences (timer_inputText t)); [done|].
  simpl. by destruct (summarizedText _ _ _).
Qed.

Lemma onTimeout_invariant t w :
  trim (timer_inputText t) ≠ [] → sliderValue (timer_summaryLength t) →
  timers w = [] → sliderValue (summaryLength (state w)) →
  Forall eventToast (toasts w) →
  uiInvariant toLowerCase (onTimeout toLowerCase t w).
Proof.
  intros Htext Hvalue Htimers Hslider Htoasts.
  unfold uiInvariant, pendingTimer. rewrite onTimeout_summary.
  unfold onTimeout.
  destruct (sentences (timer_inputText t)) as [|s pool] eqn:Hpool; simpl.
  - rewrite Htimers. split; [by left|]. split; [done|]. split; [done|].
    right. by left.
  - assert (sentences (timer_inputText t) ≠ []) as Hne by by rewrite Hpool.
    pose proof (topSentences_slider _ _ Hvalue Hne) as Hcount.
    assert (topSentences toLowerCase (timer_inputText t) (timer_summaryLength t)
            ≠ []) as Htop.
    { intros Htop. rewrite Htop in Hcount. simpl in Hcount. lia. }
    pose proof (summarizedText_nonempty toLowerCase _ _ Htop) as Hsome.
    rewrite Htimers. split; [by left|]. split; [done|]. split.
    + apply Forall_app. split; [done|]. apply Forall_singleton.
      right. eauto.
    + destruct (summarizedText toLowerCase (timer_inputText t)
                  (timer_summaryLength t)) as [|c text] eqn:Htxt; [done|].
      right. right. exists (timer_inputText t), (timer_summaryLength t).
      by rewrite Htxt.
Qed.

Lemma step_invariant w w' :
  uiInvariant toLowerCase w → step toLowerCase w w' →
  uiInvariant toLowerCase w'.
Proof.
  intros (Hpending & Hslider & Htoasts & Hsummary) Hstep.
  destruct Hstep as [text w|value w Hvalue|w Henabled|w|w|t rest w Htimers].
  - done.
  - split; [done|]. split; [by exists value|done].
  - unfold summarizeDisabled in Henabled. unfold summarizeText.
    destruct (trim (inputText (state w))) as [|c text] eqn:Htext; [done|].
    destruct Hpending as [[Htimers _]|(t & _ & Hproc & _)]; [|congruence].
    split; [|done]. right. eexists. simpl. rewrite Htimers.
    split; [done|]. split; [done|]. simpl. by rewrite Htext.
  - split; [done|]. split; [done|]. split; [done|]. by left.
  - split; [done|]. split; [done|]. split; [|done].
    apply Forall_app. split; [done|]. apply Forall_singleton. by left.
  - destruct Hpending as [[Hnone _]|(t' & Hone & _ & Htext & Hvalue)];
      [congruence|].
    rewrite Htimers in Hone. simplify_eq. by apply onTimeout_invariant.
Qed.

Lemma reachable_invariant w :
  reachable toLowerCase w → uiInvariant toLowerCase w.
Proof.
  unfold reachable. revert w.
  apply (rtc_ind_r (uiInvariant toLowerCase) initialWorld).
  - split; [by left|]. split; [by exists 3%Z|]. split; [done|by left].
  - intros w w' _ Hstep IH. by apply (step_invariant w).
Qed.

Lemma edit_step w w' : edit w w' → step toLowerCase w w'.
Proof. destruct 1; by constructor. Qed.

(** X3: at most one summarization is pending at any time, the component
    is processing exactly while one is, and all that time the button is
    disabled. *)
Theorem events_single_timer w :
  reachable toLowerCase w →
  length (timers w) ≤ 1
  ∧ (isProcessing (state w) = true ↔ timers w ≠ [])
  ∧ (timers w ≠ [] → summarizeDisabled (state w) = true).
Proof.
  intros ([[Hnone Hidle]|(t & Hone & Hbusy & _)] & _)%reachable_invariant.
  - rewrite Hnone, Hidle. split; [simpl; lia|]. split; [|done]. by split.
  - rewrite Hone, Hbusy. split; [done|]. split; [by split|].
    intros _. unfold summarizeDisabled. rewrite Hbusy.
    by destruct (trim (inputText (state w))).
Qed.

(** X4: the events never show the "No Text" toast, since the button is
    disabled on blank text: every toast shown is "Copied!" or "Summary
    Generated" for a count between 1 and 10. *)
Theorem events_toasts w :
  reachable toLowerCase w →
  Forall eventToast (toasts w) ∧ toastNoText ∉ toasts w.
Proof.
  intros (_ & _ & Htoasts & _)%reachable_invariant. split; [done|].
  intros Hin. rewrite Forall_forall in Htoasts.
  destruct (Htoasts _ Hin) as [Heq|(n & _ & Heq)]; discriminate Heq.
Qed.


(** X6: the result of a summarization is fixed by the click.  Whatever is
    typed, slid, reset or copied before the timer fires, the timer stays
    pending, the button stays disabled, and the summary set when it fires
    is the one of the text and the slider value at the moment of the
    click. *)
Theorem summarize_result_fixed w w' :
  summarizeDisabled (state w) = false → timers w = [] →
  rtc edit (summarizeText w) w' →
  ∃ t, timers w' = [t]
       ∧ summarizeDisabled (state w') = true
       ∧ summary (state (onTimeout toLowerCase t
                           {| state := state w'; toasts := toasts w';
                              timers := [] |}))
         = summary (state (click toLowerCase (state w))).
Proof.
  intros Henabled Hnone Hedits.
  set (t := {| timer_inputText := inputText (state w);
               timer_summaryLength := summaryLength (state w);
               timer_delay := 1000 |}).
  unfold summarizeDisabled in Henabled.
  destruct (trim (inputText (state w))) as [|c text] eqn:Htext; [done|].
  assert (timers w' = [t] ∧ isProcessing (state w') = true) as [Hone Hbusy].
  { revert w' Hedits.
    apply (rtc_ind_r (λ w', timers w' = [t] ∧ isProcessing (state w') = true)).
    - unfold summarizeText. rewrite Htext. simpl. by rewrite Hnone.
    - intros w1 w2 _ Hedit [Hone Hbusy]. by destruct Hedit. }
  exists t. split; [done|]. split.
  - unfold summarizeDisabled. rewrite Hbusy.
    by destruct (trim (inputText (state w'))).
  - rewrite click_timeout by by rewrite Htext.
    by rewrite !onTimeout_summary.
Qed.

End Events.

(** * The Reminders component *)

Section RemindersFacts.

Import Reminders.

Variable getTime : jsstring → option Z.
Variable toLocaleString : jsstring → jsstring.

Lemma withCompleted_same r : withCompleted (completed r) r = r.
Proof. by destruct r. Qed.

(** X7: toggling a reminder twice restores the component: "Complete"
    followed by "Restore" (or the reverse) changes nothing. *)
Theorem toggleReminder_twice id' w :
  toggleReminder id' (toggleReminder id' w) = w.
Proof.
  destruct w as [[rs title' datetime'] shown].
  unfold toggleReminder, setReminders. simpl. do 2 f_equal.
  rewrite <- list_fmap_compose. rewrite <- (list_fmap_id rs) at 2.
  apply list_fmap_ext. intros _ r _. simpl.
  destruct (decide (id r = id')) as [Heq|Hne]; simpl.
  - rewrite decide_True by done.
    destruct r as [? ? ? b]. unfold withCompleted. simpl. by rewrite negb_involutive.
  - by rewrite decide_False.
Qed.

Lemma filter_all {A} (P : A → Prop) `{!∀ x, Decision (P x)} (l : list A) :
  Forall P l → filter P l = l.
Proof.
  induction 1 as [|x l Hx Hl IH]; [done|].
  by rewrite filter_cons_True, IH.
Qed.

Lemma filter_none {A} (P : A → Prop) `{!∀ x, Decision (P x)} (l : list A) :
  Forall (λ x, ¬ P x) l → filter P l = [].
Proof.
  induction 1 as [|x l Hx Hl IH]; [done|].
  by rewrite filter_cons_False.
Qed.

Lemma filter_other_id (rs : list Reminder) k r :
  NoDup (id <$> rs) → rs !! k = Some r →
  filter (λ x, id x ≠ id r) rs = delete k rs.
Proof.
  revert k. induction rs as [|x rs IH]; intros k Hnd Hk; [done|].
  rewrite fmap_cons in Hnd. apply NoDup_cons in Hnd as [Hx Hnd].
  destruct k as [|k]; simplify_eq/=.
  - rewrite filter_cons_False by (intros ?; done).
    apply filter_all, Forall_forall. intros y Hy Heq. apply Hx.
    rewrite <- Heq. by apply list_elem_of_fmap_2.
  - rewrite filter_cons_True.
    + f_equal. by apply IH.
    + intros Heq. apply Hx. rewrite Heq.
      apply list_elem_of_fmap_2. by eapply list_elem_of_lookup_2.
Qed.

Lemma toggle_other_id (rs : list Reminder) k r :
  NoDup (id <$> rs) → rs !! k = Some r →
  (λ x, if decide (id x = id r)
        then withCompleted (negb (completed x)) x else x) <$> rs
  = <[k := withCompleted (negb (completed r)) r]> rs.
Proof.
  revert k. induction rs as [|x rs IH]; intros k Hnd Hk; [done|].
  rewrite fmap_cons in Hnd. apply NoDup_cons in Hnd as [Hx Hnd].
  destruct k as [|k]; simplify_eq/=.
  - rewrite decide_True by done. f_equal.
    rewrite <- (list_fmap_id rs) at 2. apply list_fmap_ext.
    intros i y Hy. simpl. rewrite decide_False; [done|].
    intros Heq. apply Hx. rewrite <- Heq.
    apply list_elem_of_fmap_2. by eapply list_elem_of_lookup_2.
  - rewrite decide_False.
    + f_equal. by apply IH.
    + intros Heq. apply Hx. rewrite Heq.
      apply list_elem_of_fmap_2. by eapply list_elem_of_lookup_2.
Qed.

(** X8: while the ids of the reminders are distinct, the buttons of a
    reminder act on that reminder alone: [deleteReminder] with its id
    removes the entry at its position and [toggleReminder] flips
    [completed] at its position, every other entry staying in place. *)
Theorem reminder_buttons_local w k r :
  NoDup (id <$> reminders (Reminders.state w)) →
  reminders (Reminders.state w) !! k = Some r →
  reminders (Reminders.state (deleteReminder (id r) w))
  = delete k (reminders (Reminders.state w))
  ∧ reminders (Reminders.state (toggleReminder (id r) w))
    = <[k := withCompleted (negb (completed r)) r]>
        (reminders (Reminders.state w))
  ∧ Reminders.toasts (deleteReminder (id r) w) = Reminders.toasts w
  ∧ Reminders.toasts (toggleReminder (id r) w) = Reminders.toasts w.
Proof.
  intros Hnd Hk. split; [|split; [|done]].
  - by apply filter_other_id.
  - by apply toggle_other_id.
Qed.

Lemma markCompleted_ids ids rs : id <$> markCompleted ids rs = id <$> rs.
Proof.
  unfold markCompleted. rewrite <- list_fmap_compose.
  apply list_fmap_ext. intros _ r _. simpl. by destruct (decide _).
Qed.

Lemma markCompleted_nil rs : markCompleted [] rs = rs.
Proof.
  unfold markCompleted. rewrite <- (list_fmap_id rs) at 2.
  apply list_fmap_ext. intros _ r _. simpl.
  destruct (decide (id r ∈ [])) as [Hin|_]; [|done].
  by apply elem_of_nil in Hin.
Qed.

Lemma markCompleted_cons i ids rs :
  markCompleted ids
    ((λ r, if decide (id r = i) then withCompleted true r else r) <$> rs)
  = markCompleted (i :: ids) rs.
Proof.
  unfold markCompleted. rewrite <- list_fmap_compose.
  apply list_fmap_ext. intros _ r _. simpl.
  destruct (decide (id r = i)) as [Heq|Hne]; simpl.
  - rewrite (decide_True (P := id r ∈ i :: ids)) by (rewrite Heq; by left).
    by destruct (decide (id r ∈ ids)).
  - destruct (decide (id r ∈ ids)) as [Hin|Hout].
    + rewrite decide_True; [done|by right].
    + rewrite decide_False; [done|]. rewrite not_elem_of_cons. done.
Qed.

(** What one run of the interval callback does, for the reminders [rs] of
    its render. *)
Lemma checkDue_fold now rs w :
  foldl
    (λ w reminder,
       if due getTime now reminder then
         setReminders
           (λ prev, (λ r, if decide (id r = id reminder)
                          then withCompleted true r else r) <$> prev)
           (Reminders.toast
              (Build_Toast (bell ++ js "Reminder") (Reminders.title reminder) false) w)
       else w)
    w rs
  = {| Reminders.state :=
         {| reminders :=
              markCompleted
                (id <$> filter (λ r, due getTime now r = true) rs)
                (reminders (Reminders.state w));
            newTitle := newTitle (Reminders.state w);
            newDatetime := newDatetime (Reminders.state w) |};
       Reminders.toasts :=
         Reminders.toasts w
         ++ ((λ r, Build_Toast (bell ++ js "Reminder") (Reminders.title r) false)
               <$> filter (λ r, due getTime now r = true) rs) |}.
Proof.
  revert w. induction rs as [|r rs IH]; intros w.
  - destruct w as [[? ? ?] ?]. simpl.
    by rewrite markCompleted_nil, app_nil_r.
  - simpl. rewrite IH. destruct (due getTime now r) eqn:Hdue.
    + rewrite filter_cons_True by done. simpl.
      by rewrite markCompleted_cons, <- app_assoc.
    + rewrite filter_cons_False by congruence. done.
Qed.

Lemma checkDue_reminders now w :
  reminders (Reminders.state (checkDue getTime now w))
  = markCompleted
      (id <$> filter (λ r, due getTime now r = true)
                (reminders (Reminders.state w)))
      (reminders (Reminders.state w)).
Proof. unfold checkDue. by rewrite checkDue_fold. Qed.

Lemma due_not_completed now r : due getTime now r = true → completed r = false.
Proof. unfold due. by destruct (completed r). Qed.

(** X9: a reminder is notified once.  One run of the interval callback
    shows one toast for each reminder that is due, in their order, and
    leaves every due reminder completed; whatever a later run at any time
    finds due was a reminder of the earlier render that was not due then;
    and a second run at the same time changes nothing. *)
Theorem checkDue_once now w :
  Reminders.toasts (checkDue getTime now w)
  = Reminders.toasts w
    ++ ((λ r, Build_Toast (bell ++ js "Reminder") (Reminders.title r) false)
          <$> filter (λ r, due getTime now r = true)
                (reminders (Reminders.state w)))
  ∧ (∀ r, r ∈ reminders (Reminders.state w) → due getTime now r = true →
       withCompleted true r
       ∈ reminders (Reminders.state (checkDue getTime now w)))
  ∧ (∀ later r, r ∈ reminders (Reminders.state (checkDue getTime now w)) →
       due getTime later r = true →
       r ∈ reminders (Reminders.state w) ∧ due getTime now r = false)
  ∧ checkDue getTime now (checkDue getTime now w) = checkDue getTime now w.
Proof.
  set (dueIds := id <$> filter (λ r, due getTime now r = true)
                          (reminders (Reminders.state w))).
  assert (∀ later r,
            r ∈ reminders (Reminders.state (checkDue getTime now w)) →
            due getTime later r = true →
            r ∈ reminders (Reminders.state w) ∧ due getTime now r = false)
    as Hlater.
  { intros later r Hr Hdue. rewrite checkDue_reminders in Hr.
    apply list_elem_of_fmap in Hr as (x & -> & Hx).
    destruct (decide (id x ∈ _)) as [Hin|Hout].
    - apply due_not_completed in Hdue. done.
    - split; [done|]. destruct (due getTime now x) eqn:Hx'; [|done].
      destruct Hout. apply list_elem_of_fmap_2.
      by apply list_elem_of_filter. }
  split; [|split; [|split; [done|]]].
  - unfold checkDue. by rewrite checkDue_fold.
  - intros r Hr Hdue. rewrite checkDue_reminders.
    apply list_elem_of_fmap. exists r. split; [|done].
    rewrite decide_True; [done|].
    apply list_elem_of_fmap_2. by apply list_elem_of_filter.
  - assert (filter (λ r, due getTime now r = true)
              (reminders (Reminders.state (checkDue getTime now w))) = [])
      as Hnone.
    { apply filter_none, Forall_forall. intros x Hx Hdue.
      destruct (Hlater now x Hx Hdue) as [_ Hnot]. congruence. }
    unfold checkDue at 1. rewrite checkDue_fold, Hnone. simpl.
    rewrite markCompleted_nil, app_nil_r.
    by destruct (checkDue getTime now w) as [[? ? ?] ?].
Qed.

(** X10: the ids of the reminders stay distinct: deleting, toggling and
    the interval callback keep them so, and so does adding a reminder
    under an id that is not in use. *)
Theorem reminder_ids_distinct w :
  NoDup (id <$> reminders (Reminders.state w)) →
  (∀ i, NoDup (id <$> reminders (Reminders.state (deleteReminder i w))))
  ∧ (∀ i, NoDup (id <$> reminders (Reminders.state (toggleReminder i w))))
  ∧ (∀ now, NoDup (id <$> reminders (Reminders.state (checkDue getTime now w))))
  ∧ (∀ uuid, uuid ∉ (id <$> reminders (Reminders.state w)) →
       NoDup (id <$> reminders
                (Reminders.state (addReminder toLocaleString uuid w)))).
Proof.
  intros Hnd. split; [|split; [|split]].
  - intros i. simpl. eapply sublist_NoDup; [exact Hnd|].
    apply fmap_sublist, sublist_filter.
  - intros i. simpl. rewrite <- list_fmap_compose.
    erewrite list_fmap_ext; [exact Hnd|].
    intros _ r _. simpl. by destruct (decide _).
  - intros now. by rewrite checkDue_reminders, markCompleted_ids.
  - intros uuid Hfresh. unfold addReminder.
    destruct (trim (newTitle (Reminders.state w))); [done|].
    destruct (newDatetime (Reminders.state w)); [done|]. simpl.
    rewrite fmap_app. apply NoDup_app. split; [done|]. split.
    + intros i Hi [->|Hnil%elem_of_nil]%elem_of_cons; done.
    + apply NoDup_singleton.
Qed.

(** X11: a reminder added under an id that is not in use and then
    deleted leaves the list of reminders as it was. *)
Theorem add_then_delete uuid w :
  uuid ∉ (id <$> reminders (Reminders.state w)) →
  reminders (Reminders.state
               (deleteReminder uuid (addReminder toLocaleString uuid w)))
  = reminders (Reminders.state w).
Proof.
  intros Hfresh.
  assert (filter (λ r, id r ≠ uuid) (reminders (Reminders.state w))
          = reminders (Reminders.state w)) as Hkeep.
  { apply filter_all, Forall_forall. intros r Hr Heq. apply Hfresh.
    rewrite <- Heq. by apply list_elem_of_fmap_2. }
  unfold addReminder.
  destruct (trim (newTitle (Reminders.state w))); [done|].
  destruct (newDatetime (Reminders.state w)); [done|]. simpl.
  rewrite filter_app, Hkeep, filter_cons_False, filter_nil, app_nil_r; [done|].
  simpl. by intros ?.
Qed.

(** The decimal of a number that is not negative starts with a digit. *)
Lemma pretty_N_go_digit x s :
  (∃ a rest, s = String a rest ∧ (48 ≤ N_of_ascii a ≤ 57)%N) ∨ (0 < x)%N →
  ∃ a rest, pretty_N_go x s = String a rest ∧ (48 ≤ N_of_ascii a ≤ 57)%N.
Proof.
  revert s. induction (N.lt_wf_0 x) as [x _ IH]; intros s Hs.
  assert (x = 0 ∨ 0 < x)%N as [->|Hpos] by lia.
  - rewrite pretty_N_go_0. destruct Hs as [Hs|Hs]; [done|lia].
  - rewrite pretty_N_go_step by done. apply IH.
    + by apply N.div_lt.
    + left. eexists _, _. split; [done|].
      unfold pretty_N_char. repeat case_match; simpl; lia.
Qed.

Lemma pretty_Z_digit (z : Z) :
  (0 ≤ z)%Z → ∃ c rest, js (pretty z) = c :: rest ∧ (48 ≤ c ≤ 57)%N.
Proof.
  intros Hz. destruct z as [|p|p]; [|clear Hz|lia].
  - exists 48%N, []. split; [done|lia].
  - unfold pretty, pretty_Z, pretty, pretty_positive, pretty, pretty_N.
    rewrite decide_False by done.
    destruct (pretty_N_go_digit (N.pos p) "") as (a & rest & -> & Ha);
      [right; lia|].
    by exists (N_of_ascii a), (js rest).
Qed.

Lemma digit_not_overdue (z : Z) (rest : jsstring) :
  (0 ≤ z)%Z → js (pretty z) ++ rest ≠ js "Overdue".
Proof.
  intros Hz. destruct (pretty_Z_digit z Hz) as (c & t & -> & Hc).
  intros [= -> _]. lia.
Qed.

(** X12: the badge of a reminder reads "Overdue" exactly when its date is
    valid and lies before the present time. *)
Theorem getTimeUntil_overdue now datetime' :
  getTimeUntil getTime now datetime' = js "Overdue"
  ↔ ∃ target, getTime datetime' = Some target ∧ (target < now)%Z.
Proof.
  unfold getTimeUntil.
  destruct (getTime datetime') as [target|]; [|split; [done|by intros (? & ? & _)]].
  destruct (Z.ltb_spec (target - now) 0) as [Hlt|Hge].
  - split; [|done]. intros _. exists target. split; [done|lia].
  - split; [|intros (? & [= <-] & ?); lia].
    intros Heq. exfalso.
    pose proof (Z.div_pos (target - now) (1000 * 60 * 60 * 24)) as Hdays.
    pose proof (Z.mod_pos_bound (target - now) (1000 * 60 * 60 * 24)) as Hd.
    pose proof (Z.mod_pos_bound (target - now) (1000 * 60 * 60)) as Hh.
    pose proof (Z.div_pos ((target - now) `mod` (1000 * 60 * 60 * 24))
                  (1000 * 60 * 60)) as Hhours.
    pose proof (Z.div_pos ((target - now) `mod` (1000 * 60 * 60))
                  (1000 * 60)) as Hminutes.
    repeat case_match; revert Heq; apply digit_not_overdue; lia.
Qed.

(** X13: for a date that is valid and not yet past, the badge shows the
    two largest parts of the time left, split into days, hours below 24
    and minutes below 60 with less than a minute left over: days and
    hours from one day on, hours and minutes from one hour on, and the
    minutes otherwise. *)
Theorem getTimeUntil_parts now datetime' target :
  getTime datetime' = Some target →
  (now ≤ target)%Z →
  ∃ days hours minutes rest : Z,
    (target - now
     = days * 86400000 + hours * 3600000 + minutes * 60000 + rest)%Z
    ∧ (0 ≤ days)%Z ∧ (0 ≤ hours < 24)%Z ∧ (0 ≤ minutes < 60)%Z
    ∧ (0 ≤ rest < 60000)%Z
    ∧ getTimeUntil getTime now datetime'
      = if (0 <? days)%Z then
          js (pretty days) ++ js "d " ++ js (pretty hours) ++ js "h"
        else if (0 <? hours)%Z then
          js (pretty hours) ++ js "h " ++ js (pretty minutes) ++ js "m"
        else js (pretty minutes) ++ js "m".
Proof.
  intros Htime Hnow. unfold getTimeUntil. rewrite Htime.
  destruct (Z.ltb_spec (target - now) 0) as [Hlt|Hge]; [lia|].
  set (diff := (target - now)%Z) in *.
  exists (diff `div` (1000 * 60 * 60 * 24))%Z,
         ((diff `mod` (1000 * 60 * 60 * 24)) `div` (1000 * 60 * 60))%Z,
         ((diff `mod` (1000 * 60 * 60)) `div` (1000 * 60))%Z,
         (diff `mod` (1000 * 60))%Z.
  split; [|split; [|split; [|split; [|split; [|done]]]]].
  - assert (diff `mod` (1000 * 60 * 60)
            = (diff `mod` (1000 * 60 * 60 * 24)) `mod` (1000 * 60 * 60))%Z
      as Hh.
    { symmetry. apply Z.mod_mod_divide. by exists 24%Z. }
    assert (diff `mod` (1000 * 60)
            = (diff `mod` (1000 * 60 * 60)) `mod` (1000 * 60))%Z as Hm.
    { symmetry. apply Z.mod_mod_divide. by exists 60%Z. }
    pose proof (Z.div_mod diff (1000 * 60 * 60 * 24)) as H1.
    pose proof (Z.div_mod (diff `mod` (1000 * 60 * 60 * 24)) (1000 * 60 * 60))
      as H2.
    pose proof (Z.div_mod (diff `mod` (1000 * 60 * 60)) (1000 * 60)) as H3.
    rewrite <- Hh in H2. rewrite <- Hm in H3. lia.
  - apply Z.div_pos; lia.
  - pose proof (Z.mod_pos_bound diff (1000 * 60 * 60 * 24)).
    split; [apply Z.div_pos; lia|apply Z.div_lt_upper_bound; lia].
  - pose proof (Z.mod_pos_bound diff (1000 * 60 * 60)).
    split; [apply Z.div_pos; lia|apply Z.div_lt_upper_bound; lia].
  - apply Z.mod_pos_bound. lia.
Qed.

End RemindersFacts.

(** * The added statements on concrete worlds *)

Lemma pendingWorld_reachable : reachable toLowerCase_latin pendingWorld.
Proof.
  unfold reachable. eapply rtc_l; [apply step_change|].
  apply rtc_once. apply (step_summarize toLowerCase_latin typedWorld).
  reflexivity.
Qed.

Lemma doneWorld_reachable : reachable toLowerCase_latin doneWorld.
Proof.
  unfold reachable. eapply rtc_r; [apply pendingWorld_reachable|].
  apply (step_timeout toLowerCase_latin _ [] pendingWorld). reflexivity.
Qed.

Lemma getWordCount_words_witness :
  trim (js "  two  words ") ≠ []
  ∧ getWordCount (js "  two  words ") = 2.
Proof.
  assert (trim (js "  two  words ") ≠ []) as Hne by (vm_compute; discriminate).
  split; [exact Hne|].
  destruct (getWordCount_words _ Hne) as (words & runs & Hcount & _).
  reflexivity.
Defined.

Lemma events_single_timer_witness :
  reachable toLowerCase_latin pendingWorld
  ∧ length (timers pendingWorld) ≤ 1
  ∧ summarizeDisabled (state pendingWorld) = true.
Proof.
  split; [exact pendingWorld_reachable|].
  destruct (events_single_timer toLowerCase_latin pendingWorld
              pendingWorld_reachable) as (Hone & _ & Hoff).
  split; [exact Hone|]. apply Hoff. vm_compute. discriminate.
Defined.

Lemma events_toasts_witness :
  reachable toLowerCase_latin doneWorld
  ∧ Forall eventToast (toasts doneWorld)
  ∧ toasts doneWorld = [toastGenerated 2].
Proof.
  split; [exact doneWorld_reachable|].
  destruct (events_toasts toLowerCase_latin doneWorld doneWorld_reachable)
    as [Hall _].
  split; [exact Hall|]. vm_compute. reflexivity.
Defined.


Lemma summarize_result_fixed_witness :
  summarizeDisabled (state typedWorld) = false
  ∧ timers typedWorld = []
  ∧ rtc edit (summarizeText typedWorld) (clearAll (summarizeText typedWorld))
  ∧ ∃ t, timers (clearAll (summarizeText typedWorld)) = [t]
         ∧ inputText (state (clearAll (summarizeText typedWorld))) = js ""
         ∧ summary (state (onTimeout toLowerCase_latin t
                             {| state := state (clearAll (summarizeText typedWorld));
                                toasts := toasts (clearAll (summarizeText typedWorld));
                                timers := [] |}))
           = summary (state (click toLowerCase_latin (state typedWorld))).
Proof.
  assert (summarizeDisabled (state typedWorld) = false) as Hon by reflexivity.
  assert (timers typedWorld = []) as Hnone by reflexivity.
  assert (rtc edit (summarizeText typedWorld)
            (clearAll (summarizeText typedWorld))) as Hedit
    by (apply rtc_once, edit_clear).
  split; [exact Hon|]. split; [exact Hnone|]. split; [exact Hedit|].
  destruct (summarize_result_fixed toLowerCase_latin _ _ Hon Hnone Hedit)
    as (t & Ht & _ & Hsame).
  exists t. split; [exact Ht|]. split; [reflexivity|exact Hsame].
Defined.

Lemma twoReminders_distinct :
  NoDup (Reminders.id <$> Reminders.reminders (Reminders.state twoReminders)).
Proof.
  vm_compute. apply NoDup_cons. split.
  - intros [Heq|Hin%elem_of_nil]%elem_of_cons; [discriminate Heq|exact Hin].
  - apply NoDup_singleton.
Qed.

Lemma twoReminders_fresh :
  js "c"
  ∉ (Reminders.id <$> Reminders.reminders (Reminders.state twoReminders)).
Proof.
  vm_compute.
  intros [Heq|[Heq|Hin%elem_of_nil]%elem_of_cons]%elem_of_cons;
    [discriminate Heq|discriminate Heq|exact Hin].
Qed.

Lemma reminder_buttons_local_witness :
  NoDup (Reminders.id <$> Reminders.reminders (Reminders.state twoReminders))
  ∧ Reminders.completed
      <$> Reminders.reminders
            (Reminders.state (Reminders.toggleReminder (js "b") twoReminders))
    = [false; false]
  ∧ length (Reminders.reminders
              (Reminders.state (Reminders.deleteReminder (js "b") twoReminders)))
    = 1.
Proof.
  pose proof twoReminders_distinct as Hnd.
  split; [exact Hnd|].
  destruct (reminder_buttons_local twoReminders 1
              {| Reminders.id := js "b"; Reminders.title := js "Mail";
                 Reminders.datetime := js "2030-01-02T10:00";
                 Reminders.completed := true |} Hnd eq_refl)
    as (Hdelete & Htoggle & _).
  split.
  - change (js "b") with
      (Reminders.id {| Reminders.id := js "b"; Reminders.title := js "Mail";
                       Reminders.datetime := js "2030-01-02T10:00";
                       Reminders.completed := true |}).
    rewrite Htoggle. reflexivity.
  - change (js "b") with
      (Reminders.id {| Reminders.id := js "b"; Reminders.title := js "Mail";
                       Reminders.datetime := js "2030-01-02T10:00";
                       Reminders.completed := true |}).
    rewrite Hdelete. reflexivity.
Defined.

Lemma reminder_ids_distinct_witness :
  NoDup (Reminders.id <$> Reminders.reminders (Reminders.state twoReminders))
  ∧ NoDup (Reminders.id
             <$> Reminders.reminders
                   (Reminders.state
                      (Reminders.addReminder (λ s, s) (js "c") twoReminders)))
  ∧ length (Reminders.reminders
              (Reminders.state
                 (Reminders.addReminder (λ s, s) (js "c") twoReminders))) = 3.
Proof.
  split; [exact twoReminders_distinct|].
  destruct (reminder_ids_distinct (λ _, None) (λ s, s) twoReminders
              twoReminders_distinct) as (_ & _ & _ & Hadd).
  split; [exact (Hadd (js "c") twoReminders_fresh)|reflexivity].
Defined.

Lemma add_then_delete_witness :
  (js "c"
   ∉ (Reminders.id <$> Reminders.reminders (Reminders.state twoReminders)))
  ∧ length (Reminders.reminders
              (Reminders.state
                 (Reminders.addReminder (λ s, s) (js "c") twoReminders))) = 3
  ∧ Reminders.reminders
      (Reminders.state
         (Reminders.deleteReminder (js "c")
            (Reminders.addReminder (λ s, s) (js "c") twoReminders)))
    = Reminders.reminders (Reminders.state twoReminders).
Proof.
  split; [exact twoReminders_fresh|]. split; [reflexivity|].
  exact (add_then_delete (λ s, s) (js "c") twoReminders twoReminders_fresh).
Defined.

Lemma getTimeUntil_parts_witness :
  (0 ≤ 90061000)%Z
  ∧ Reminders.getTimeUntil (λ _, Some 90061000%Z) 0 (js "2030-01-01T10:00")
    = js "1d 1h"
  ∧ ∃ days hours minutes rest : Z,
      (90061000 - 0
       = days * 86400000 + hours * 3600000 + minutes * 60000 + rest)%Z
      ∧ (0 ≤ days)%Z ∧ (0 ≤ hours < 24)%Z ∧ (0 ≤ minutes < 60)%Z
      ∧ (0 ≤ rest < 60000)%Z.
Proof.
  assert (0 ≤ 90061000)%Z as Hnow by lia.
  split; [exact Hnow|]. split; [vm_compute; reflexivity|].
  destruct (getTimeUntil_parts (λ _, Some 90061000%Z) 0 (js "2030-01-01T10:00")
              90061000 eq_refl Hnow)
    as (days & hours & minutes & rest & Hsum & Hd & Hh & Hm & Hr & _).
  exists days, hours, minutes, rest. repeat split; lia.
Defined.

(** * Ties and the range of the scores *)

Lemma filter_sorted {A} (R : relation A) (P : A → Prop)
    `{!∀ x, Decision (P x)} (l : list A) :
  StronglySorted R l → StronglySorted R (filter P l).
Proof.
  induction 1 as [|x l Hl IH Hx]; [constructor|].
  rewrite filter_cons. destruct (decide (P x)); [|done].
  constructor; [done|].
  apply Forall_forall. intros y [_ Hy]%list_elem_of_filter.
  rewrite Forall_forall in Hx. by apply Hx.
Qed.

Section Ties.

Variable toLowerCase : jsstring → jsstring.

(** X14: a tie between two sentences goes to the earlier one: when two
    sentences of the pool have the same score and the later one is in the
    summary, so is the earlier one. *)
Theorem ties_prefer_earlier document summaryLength i j a b :
  sentenceScores toLowerCase document !! i = Some a →
  sentenceScores toLowerCase document !! j = Some b →
  i < j →
  (score a == score b)%Q →
  b ∈ topSentences toLowerCase document summaryLength →
  a ∈ topSentences toLowerCase document summaryLength.
Proof.
  intros Ha Hb Hij Htie.
  rewrite !topSentences_Permutation.
  destruct (slice0_take (sort byScoreDesc (sentenceScores toLowerCase document))
              (sliceEnd summaryLength (length (sentences document))))
    as [k ->].
  set (pool := sentenceScores toLowerCase document) in *.
  set (sorted := sort byScoreDesc pool).
  intros Hbtop.
  assert (a ∈ take k sorted ++ drop k sorted) as Hin.
  { rewrite take_drop. unfold sorted. rewrite sort_Permutation.
    by eapply list_elem_of_lookup_2. }
  apply elem_of_app in Hin as [|Hadrop]; [done|exfalso].
  set (P := λ x : ScoredSentence, Qeq_bool (score x) (score a) = true).
  assert (P a) as HPa by apply Qeq_bool_refl.
  assert (P b) as HPb.
  { unfold P. apply Qeq_bool_iff. by symmetry. }
  assert (filter P sorted = filter P pool) as Hstable.
  { apply sort_stable. intros x y Hx%Qeq_bool_iff Hy%Qeq_bool_iff.
    apply Qle_bool_iff. unfold byScoreDesc. rewrite Hx, Hy. lra. }
  assert (StronglySorted (key_lt index) (filter P sorted)) as Hsorted.
  { rewrite Hstable. apply filter_sorted, sentenceScores_sorted. }
  rewrite <- (take_drop k sorted), filter_app in Hsorted.
  assert (key_lt index b a) as Hlt.
  { apply (StronglySorted_app_1_elem_of _ _ _ b a Hsorted);
      by apply list_elem_of_filter. }
  apply (sentenceScores_lookup toLowerCase) in Ha as [Hia _].
  apply (sentenceScores_lookup toLowerCase) in Hb as [Hib _].
  unfold key_lt in Hlt. lia.
Qed.

Lemma tokenCount_bound document token :
  tokenCount toLowerCase document token
  ≤ length (words toLowerCase document).
Proof. unfold tokenCount, words. apply length_filter. Qed.

Lemma sum_list_bound (count : jsstring → nat) (bound : nat) tokens :
  (∀ token, count token ≤ bound) →
  sum_list (count <$> tokens) ≤ length tokens * bound.
Proof.
  intros Hcount. induction tokens as [|t tokens IH]; [done|].
  rewrite fmap_cons. specialize (Hcount t).
  change (count t + sum_list (count <$> tokens)
          ≤ bound + length tokens * bound).
  lia.
Qed.

Lemma lengthNormalized_range document s :
  (0 <= lengthNormalized toLowerCase document s
   <= inject_Z (Z.of_nat (length (words toLowerCase document))))%Q.
Proof.
  unfold lengthNormalized.
  destruct (longWords toLowerCase s) as [|t tokens] eqn:Htokens.
  { split; [apply Qle_refl|].
    change 0%Q with (inject_Z 0). rewrite <- Zle_Qle. lia. }
  set (toks := t :: tokens).
  pose proof (sum_list_bound (tokenCount toLowerCase document)
                (length (words toLowerCase document)) toks
                (tokenCount_bound document)) as Hsum.
  assert (0 < inject_Z (Z.of_nat (length toks)))%Q as Hpos.
  { change 0%Q with (inject_Z 0). rewrite <- Zlt_Qlt. simpl. lia. }
  split.
  - apply Qle_shift_div_l; [done|]. rewrite Qmult_0_l.
    change 0%Q with (inject_Z 0). rewrite <- Zle_Qle. lia.
  - apply Qle_shift_div_r; [done|].
    rewrite <- inject_Z_mult, <- Zle_Qle. lia.
Qed.

(** X15: no score is negative, and none exceeds one and a half times the
    number of words of the document that are longer than three
    characters. *)
Theorem score_range document r :
  r ∈ sentenceScores toLowerCase document →
  (0 <= score r
   <= (3 # 2) * inject_Z (Z.of_nat (length (words toLowerCase document))))%Q.
Proof.
  intros [i Hi]%list_elem_of_lookup.
  destruct (sentenceScores_lookup toLowerCase document i r Hi)
    as (_ & s & Hs & _).
  destruct (sentenceScores_score toLowerCase document i s Hs)
    as (r' & Hr' & Hscore).
  rewrite Hi in Hr'. injection Hr' as <-.
  pose proof (lengthNormalized_range document s) as [Hlow Hhigh].
  rewrite Hscore. unfold positionBonus.
  destruct (boosted i (length (sentences document))); split; lra.
Qed.

End Ties.

Lemma ties_prefer_earlier_witness :
  ∃ a b,
    sentenceScores toLowerCase_latin
      (js "Summaries need words. Another sentence is here. And a third one follows.")
      !! 1 = Some a
    ∧ sentenceScores toLowerCase_latin
        (js "Summaries need words. Another sentence is here. And a third one follows.")
        !! 2 = Some b
    ∧ 1 < 2
    ∧ (score a == score b)%Q
    ∧ b ∈ topSentences toLowerCase_latin
            (js "Summaries need words. Another sentence is here. And a third one follows.")
            [3%Z]
    ∧ a ∈ topSentences toLowerCase_latin
            (js "Summaries need words. Another sentence is here. And a third one follows.")
            [3%Z].
Proof.
  eexists _, _.
  match goal with
  | |- ?first ∧ ?second ∧ _ =>
      assert first as Ha by (vm_compute; reflexivity);
      assert second as Hb by (vm_compute; reflexivity)
  end.
  split; [exact Ha|]. split; [exact Hb|].
  assert (1 < 2) as Hlt by lia. split; [exact Hlt|].
  match goal with
  | |- (score ?a == score ?b)%Q ∧ ?b ∈ ?top ∧ _ =>
      assert (score a == score b)%Q as Htie by (vm_compute; reflexivity);
      assert (b ∈ top) as Hbtop
        by (apply list_elem_of_lookup; exists 2; vm_compute; reflexivity)
  end.
  split; [exact Htie|]. split; [exact Hbtop|].
  exact (ties_prefer_earlier toLowerCase_latin _ _ 1 2 _ _
           Ha Hb Hlt Htie Hbtop).
Defined.

Lemma score_range_witness :
  ∃ r,
    r ∈ sentenceScores toLowerCase_latin (js "Summaries need words.")
    ∧ (0 <= score r <= (3 # 2) * 3)%Q.
Proof.
  eexists.
  match goal with
  | |- ?r ∈ ?pool ∧ _ =>
      assert (r ∈ pool) as Hr
        by (apply list_elem_of_lookup; exists 0; vm_compute; reflexivity)
  end.
  split; [exact Hr|].
  exact (score_range toLowerCase_latin _ _ Hr).
Defined.
